(** * MatrixOS device drivers: display contract, reference window driver,
      class-level capability queries and driver selection.

    Sources embedded here:
    - [matrixos/devices/base.py]: the abstract classes [DisplayDriver] and
      [InputDriver] with their classmethods;
    - [matrixos/devices/display/macos_window.py]: [MacOSWindowDriver].

    Python objects are mutable and Pygame keeps process-wide state, so every
    method is a computation over a [world] (the driver instance, Pygame's
    module state and standard output) that either returns a value or raises
    an exception; the world survives a raise, as the heap does in Python. *)

From stdpp Require Import base decidable option list list_numbers strings gmap.

Local Open Scope Z_scope.

(** ** Exceptions and results *)

(** The exception classes that matter for the driver. All of them derive from
    [Exception] except [KeyboardInterrupt], which derives from
    [BaseException] only and therefore escapes [except Exception]. *)
Inductive exn :=
  | PygameError (msg : string)
  | ImportError (msg : string)
  | TypeError (msg : string)
  | IndexError (msg : string)
  | AttributeError (msg : string)
  | ValueError (msg : string)
  | KeyboardInterrupt.

Definition is_Exception (e : exn) : bool :=
  match e with
  | KeyboardInterrupt => false
  | _ => true
  end.

(** [str(e)] as interpolated by an f-string. *)
Definition exn_str (e : exn) : string :=
  match e with
  | PygameError m | ImportError m | TypeError m | IndexError m
  | AttributeError m | ValueError m => m
  | KeyboardInterrupt => ""
  end.

Inductive result (A : Type) :=
  | Ok (a : A)
  | Raise (e : exn).
Arguments Ok {A} a.
Arguments Raise {A} e.

(** ** Python list indexing *)

(** [l[i]] accepts [-len(l) <= i < len(l)]; a negative index counts from the
    end; anything else is an [IndexError]. *)
Definition py_index {A} (l : list A) (i : Z) : option nat :=
  let n := Z.of_nat (length l) in
  if bool_decide (0 ≤ i < n) then Some (Z.to_nat i)
  else if bool_decide (- n ≤ i < 0) then Some (Z.to_nat (n + i))
  else None.

Definition py_getitem {A} (l : list A) (i : Z) : result A :=
  match py_index l i with
  | Some k =>
      match l !! k with
      | Some a => Ok a
      | None => Raise (IndexError "list index out of range")
      end
  | None => Raise (IndexError "list index out of range")
  end.

Definition py_setitem {A} (l : list A) (i : Z) (v : A) : result (list A) :=
  match py_index l i with
  | Some k => Ok (<[k := v]> l)
  | None => Raise (IndexError "list assignment index out of range")
  end.

(** [range(n)] *)
Definition range (n : Z) : list Z := seqZ 0 n.

(** ** Pixels and Pygame's module state *)

Definition color : Type := Z * Z * Z.
Definition black : color := (0, 0, 0).

Record Rect := mkRect {
  rect_left : Z;
  rect_top : Z;
  rect_width : Z;
  rect_height : Z
}.

(** A surface is its size and the filled rectangles drawn on it so far, the
    most recent first. *)
Record Surface := mkSurface {
  surf_size : Z * Z;
  surf_fills : list (Rect * color)
}.

Inductive event_type := QUIT | KEYDOWN | KEYUP | OTHER_EVENT.

Global Instance event_type_eq_dec : EqDecision event_type.
Proof. solve_decision. Defined.

Record event := mkEvent {
  ev_type : event_type;
  ev_key : Z
}.

(** What the driver can observe of the Pygame module:
    - [pg_init]: the value of [pygame.get_init()];
    - [pg_display]: the display surface made by [pygame.display.set_mode],
      [None] while no window exists;
    - [pg_window]: what the window shows, replaced by [display.flip()];
    - [pg_caption]: the window title;
    - [pg_queue]: the pending events, oldest first;
    - [pg_pick_size]: the size Pygame gives a window asked for with a zero
      width or height; it depends on the screen and on the window already
      open, so it is a given of the environment, which no call changes. *)
Record pygame := mkPygame {
  pg_init : bool;
  pg_display : option Surface;
  pg_window : list (Rect * color);
  pg_caption : string;
  pg_queue : list event;
  pg_pick_size : option Surface → Z * Z → Z * Z
}.

(** A screen of 1024 by 768, on which a window already open keeps its
    size. *)
Definition pick_on_1024_768 : option Surface → Z * Z → Z * Z := λ current _,
  match current with
  | Some s => surf_size s
  | None => (1024, 768)
  end.

(** Pygame before [pygame.init()], on that screen. *)
Definition pygame_fresh : pygame :=
  {| pg_init := false; pg_display := None; pg_window := [];
     pg_caption := ""; pg_queue := []; pg_pick_size := pick_on_1024_768 |}.

(** [pygame.display.set_mode] refuses a size with a negative component or
    with one that does not fit a C [int]. *)
Definition size_refused (size : Z * Z) : bool :=
  (size.1 <? 0) || (size.2 <? 0) || (2 ^ 31 <=? size.1) || (2 ^ 31 <=? size.2).

(** The size of the window it opens otherwise: the size asked for, unless a
    component is 0, when Pygame picks the size. *)
Definition window_size (p : pygame) (size : Z * Z) : Z * Z :=
  if (size.1 =? 0) || (size.2 =? 0)
  then pg_pick_size p (pg_display p) size
  else size.

(** [pygame.draw] takes a colour whose three channels are in 0..255. *)
Definition valid_channel (v : Z) : bool := (0 <=? v) && (v <=? 255).

Definition valid_color (c : color) : bool :=
  valid_channel c.1.1 && valid_channel c.1.2 && valid_channel c.2.

(** The Pygame entry points the driver calls that may fail for reasons
    outside the program (no video device, window system refusing a mode). *)
Inductive pg_call :=
  | call_init
  | call_set_mode (size : Z * Z)
  | call_set_caption (title : string)
  | call_event_get
  | call_draw_rect (c : color) (r : Rect)
  | call_flip.

(** [self.screen] holds a reference to the display surface, which Pygame
    owns: drawing through the reference draws on [pg_display]. *)
Inductive surface_ref := display_surface.

(** ** The driver instance *)

Record MacOSWindowDriver := mkDriver {
  width : Z;
  height : Z;
  name : string;
  platform : option string;
  scale : Z;
  window_width : Z;
  window_height : Z;
  screen : option surface_ref;
  buffer : option (list (list color))
}.

(** [MacOSWindowDriver.__init__], after [DisplayDriver.__init__] has set
    [width], [height] and the generic [name] and [platform] it overrides. *)
Definition MacOSWindowDriver_new (width height scale : Z) : MacOSWindowDriver :=
  {| width := width; height := height;
     name := "macOS Window (Pygame)";
     platform := Some "macos";
     scale := scale;
     window_width := width * scale;
     window_height := height * scale;
     screen := None;
     buffer := None |}.

(** Default arguments of the constructor. *)
Definition MacOSWindowDriver_default : MacOSWindowDriver :=
  MacOSWindowDriver_new 256 192 2.

Definition set_screen (s : option surface_ref) (d : MacOSWindowDriver) :=
  {| width := width d; height := height d; name := name d;
     platform := platform d; scale := scale d;
     window_width := window_width d; window_height := window_height d;
     screen := s; buffer := buffer d |}.

Definition set_buffer (b : option (list (list color))) (d : MacOSWindowDriver) :=
  {| width := width d; height := height d; name := name d;
     platform := platform d; scale := scale d;
     window_width := window_width d; window_height := window_height d;
     screen := screen d; buffer := b |}.

(** ** Worlds and computations *)

Record world := mkWorld {
  self : MacOSWindowDriver;
  pg : pygame;
  stdout : list string
}.

Definition M (A : Type) : Type := world → result A * world.

Global Instance M_ret : MRet M := λ A a w, (Ok a, w).
Global Instance M_bind : MBind M := λ A B k m w,
  match m w with
  | (Ok a, w') => k a w'
  | (Raise e, w') => (Raise e, w')
  end.

Definition raise {A} (e : exn) : M A := λ w, (Raise e, w).

(** [try: body  except Exception as e: handler e] *)
Definition try_except {A} (body : M A) (handler : exn → M A) : M A := λ w,
  match body w with
  | (Ok a, w') => (Ok a, w')
  | (Raise e, w') => if is_Exception e then handler e w' else (Raise e, w')
  end.

(** [for x in xs: body x] *)
Fixpoint for_each {A} (xs : list A) (body : A → M unit) : M unit :=
  match xs with
  | [] => mret tt
  | x :: rest => body x ;; for_each rest body
  end.

Definition get_self : M MacOSWindowDriver := λ w, (Ok (self w), w).
Definition modify_self (f : MacOSWindowDriver → MacOSWindowDriver) : M unit :=
  λ w, (Ok tt, {| self := f (self w); pg := pg w; stdout := stdout w |}).
Definition get_pg : M pygame := λ w, (Ok (pg w), w).
Definition put_pg (p : pygame) : M unit :=
  λ w, (Ok tt, {| self := self w; pg := p; stdout := stdout w |}).
Definition print (line : string) : M unit :=
  λ w, (Ok tt, {| self := self w; pg := pg w; stdout := stdout w ++ [line] |}).

(** ** Pygame calls *)

Section Driver.

(** The environment decides which Pygame calls fail, and with what. *)
Variable faults : pg_call → pygame → option exn.

Definition guarded {A} (c : pg_call) (run : pygame → M A) : M A :=
  p ← get_pg;
  match faults c p with
  | Some e => raise e
  | None => run p
  end.

(** [pygame.init()] *)
Definition pygame_init : M unit :=
  guarded call_init (λ p,
    put_pg {| pg_init := true; pg_display := pg_display p;
              pg_window := pg_window p; pg_caption := pg_caption p;
              pg_queue := pg_queue p; pg_pick_size := pg_pick_size p |}).

(** [pygame.display.set_mode(size)]: opens the window and returns its
    surface, or raises [pygame.error] for a size it refuses. *)
Definition display_set_mode (size : Z * Z) : M surface_ref :=
  guarded (call_set_mode size) (λ p,
    if size_refused size
    then raise (PygameError "Cannot set negative sized display mode")
    else
      put_pg {| pg_init := pg_init p;
                pg_display := Some {| surf_size := window_size p size;
                                      surf_fills := [] |};
                pg_window := []; pg_caption := pg_caption p;
                pg_queue := pg_queue p; pg_pick_size := pg_pick_size p |} ;;
      mret display_surface).

(** [pygame.display.set_caption(title)] *)
Definition display_set_caption (title : string) : M unit :=
  guarded (call_set_caption title) (λ p,
    put_pg {| pg_init := pg_init p; pg_display := pg_display p;
              pg_window := pg_window p; pg_caption := title;
              pg_queue := pg_queue p; pg_pick_size := pg_pick_size p |}).

(** [pygame.event.get()]: returns every pending event and removes them all
    from the queue; needs the video system. *)
Definition event_get : M (list event) :=
  guarded call_event_get (λ p,
    if pg_init p then
      put_pg {| pg_init := pg_init p; pg_display := pg_display p;
                pg_window := pg_window p; pg_caption := pg_caption p;
                pg_queue := []; pg_pick_size := pg_pick_size p |} ;;
      mret (pg_queue p)
    else raise (PygameError "video system not initialized")).

(** [pygame.draw.rect(surface, color, rect)]: raises [ValueError] for a
    colour that is not valid. *)
Definition draw_rect (s : surface_ref) (c : color) (r : Rect) : M unit :=
  guarded (call_draw_rect c r) (λ p,
    match s, pg_display p with
    | display_surface, Some d =>
        if valid_color c then
          put_pg {| pg_init := pg_init p;
                    pg_display :=
                      Some {| surf_size := surf_size d;
                              surf_fills := (r, c) :: surf_fills d |};
                    pg_window := pg_window p; pg_caption := pg_caption p;
                    pg_queue := pg_queue p; pg_pick_size := pg_pick_size p |}
        else raise (ValueError "invalid color argument")
    | display_surface, None => raise (PygameError "display Surface quit")
    end).

(** [pygame.display.flip()] *)
Definition display_flip : M unit :=
  guarded call_flip (λ p,
    match pg_display p with
    | Some d =>
        put_pg {| pg_init := pg_init p; pg_display := pg_display p;
                  pg_window := surf_fills d; pg_caption := pg_caption p;
                  pg_queue := pg_queue p; pg_pick_size := pg_pick_size p |}
    | None => raise (PygameError "video system not initialized")
    end).

(** [pygame.get_init()] and [pygame.quit()] never fail; [quit] may be called
    any number of times. After [quit] the window is gone, and its caption
    with it. *)
Definition pygame_get_init : M bool := p ← get_pg; mret (pg_init p).

Definition pygame_quit : M unit :=
  p ← get_pg;
  put_pg {| pg_init := false; pg_display := None; pg_window := [];
            pg_caption := ""; pg_queue := [];
            pg_pick_size := pg_pick_size p |}.

(** ** Buffer access *)

(** [rows[y][x]] *)
Definition grid_getitem (rows : list (list color)) (y x : Z) : result color :=
  match py_getitem rows y with
  | Raise e => Raise e
  | Ok row => py_getitem row x
  end.

(** [rows[y][x] = c]: the row object found at index [y] is updated in place.
    The rows are distinct objects (the comprehension in [initialize] builds
    each one afresh), so only that row changes. *)
Definition grid_setitem (rows : list (list color)) (y x : Z) (c : color)
  : result (list (list color)) :=
  match py_index rows y with
  | None => Raise (IndexError "list index out of range")
  | Some k =>
      match rows !! k with
      | None => Raise (IndexError "list index out of range")
      | Some row =>
          match py_setitem row x c with
          | Raise e => Raise e
          | Ok row' => Ok (<[k := row']> rows)
          end
      end
  end.

(** [self.buffer[y][x]] *)
Definition buffer_getitem (y x : Z) : M color := λ w,
  match buffer (self w) with
  | None => (Raise (TypeError "'NoneType' object is not subscriptable"), w)
  | Some rows => (grid_getitem rows y x, w)
  end.

(** [self.buffer[y][x] = c] *)
Definition buffer_setitem (y x : Z) (c : color) : M unit := λ w,
  match buffer (self w) with
  | None => (Raise (TypeError "'NoneType' object is not subscriptable"), w)
  | Some rows =>
      match grid_setitem rows y x c with
      | Raise e => (Raise e, w)
      | Ok rows' =>
          (Ok tt, {| self := set_buffer (Some rows') (self w);
                     pg := pg w; stdout := stdout w |})
      end
  end.

(** ** The methods of [MacOSWindowDriver] *)

Definition set_pixel (x y : Z) (c : color) : M unit :=
  d ← get_self;
  if (0 <=? x) && (x <? width d) && ((0 <=? y) && (y <? height d))
  then buffer_setitem y x c
  else mret tt.

Definition clear : M unit :=
  d ← get_self;
  for_each (range (height d)) (λ y,
    d ← get_self;
    for_each (range (width d)) (λ x,
      buffer_setitem y x black)).

Definition show : M unit :=
  d ← get_self;
  match screen d with
  | None => mret tt
  | Some _ =>
      events ← event_get;
      for_each events (λ ev,
        if bool_decide (ev_type ev = QUIT) then mret tt else mret tt) ;;
      d ← get_self;
      for_each (range (height d)) (λ y,
        d ← get_self;
        for_each (range (width d)) (λ x,
          c ← buffer_getitem y x;
          d ← get_self;
          let rect := mkRect (x * scale d) (y * scale d) (scale d) (scale d) in
          match screen d with
          | Some s => draw_rect s c rect
          | None =>
              raise (TypeError
                "argument 1 must be pygame.surface.Surface, not None")
          end)) ;;
      display_flip
  end.

(** The body of the [try] block of [initialize]. *)
Definition initialize_try : M bool :=
  pygame_init ;;
  d ← get_self;
  s ← display_set_mode (window_width d, window_height d);
  modify_self (set_screen (Some s)) ;;
  display_set_caption "MatrixOS - ZX Spectrum Edition" ;;
  d ← get_self;
  modify_self (set_buffer
    (Some ((λ _, (λ _, black) <$> range (width d)) <$> range (height d)))) ;;
  clear ;;
  show ;;
  mret true.

Definition initialize : M bool :=
  try_except initialize_try
    (λ e,
     print ("[MacOSWindowDriver] Failed to initialize: " +:+ exn_str e) ;;
     mret false).

Definition cleanup : M unit :=
  initialised ← pygame_get_init;
  if (initialised : bool) then pygame_quit else mret tt.

End Driver.

(** A backend in which no Pygame call fails. *)
Definition no_faults : pg_call → pygame → option exn := λ _ _, None.

Definition world_of (d : MacOSWindowDriver) (p : pygame) : world :=
  {| self := d; pg := p; stdout := [] |}.

(** ** Classes and their class-level queries ([base.py]) *)

Inductive pyval :=
  | PyBool (b : bool)
  | PyInt (n : Z)
  | PyStr (s : string)
  | PyNone.

(** What a class body binds a name to: a [@classmethod] (with what calling it
    on the class returns), an [@abstractmethod], or a plain method. *)
Inductive member :=
  | classmethod (returns : result pyval)
  | abstractmethod
  | method.

#[warnings="-register-all"]
Inductive pyclass :=
  | PyClass (cls_name : string) (cls_base : option pyclass)
            (cls_dict : gmap string member).

Definition ABC : pyclass := PyClass "ABC" None ∅.

Definition DisplayDriver : pyclass :=
  PyClass "DisplayDriver" (Some ABC)
    (list_to_map
       [("__init__", method);
        ("initialize", abstractmethod);
        ("set_pixel", abstractmethod);
        ("clear", abstractmethod);
        ("show", abstractmethod);
        ("cleanup", abstractmethod);
        ("is_available", classmethod (Ok (PyBool true)));
        ("get_priority", classmethod (Ok (PyInt 0)));
        ("get_platform_preference", classmethod (Ok PyNone))]).

Definition InputDriver : pyclass :=
  PyClass "InputDriver" (Some ABC)
    (list_to_map
       [("__init__", method);
        ("initialize", abstractmethod);
        ("poll", abstractmethod);
        ("cleanup", abstractmethod);
        ("is_available", classmethod (Ok (PyBool true)));
        ("requires_pairing", classmethod (Ok (PyBool false)));
        ("get_device_class", classmethod (Ok (PyStr "generic")));
        ("get_priority", classmethod (Ok (PyInt 0)))]).

(** [MacOSWindowDriver.is_available]:
    [try: import pygame; return True  except ImportError: return False]. *)
Definition MacOSWindowDriver_is_available (import_pygame : result unit)
  : result pyval :=
  match import_pygame with
  | Ok _ => Ok (PyBool true)
  | Raise (ImportError _) => Ok (PyBool false)
  | Raise e => Raise e
  end.

Definition MacOSWindowDriver_class (import_pygame : result unit) : pyclass :=
  PyClass "MacOSWindowDriver" (Some DisplayDriver)
    (list_to_map
       [("__init__", method);
        ("initialize", method);
        ("set_pixel", method);
        ("clear", method);
        ("show", method);
        ("cleanup", method);
        ("is_available",
           classmethod (MacOSWindowDriver_is_available import_pygame));
        ("get_priority", classmethod (Ok (PyInt 50)));
        ("get_platform_preference", classmethod (Ok (PyStr "macos")))]).

(** Attribute lookup on a class: its own namespace, then its base's. *)
Fixpoint class_lookup (cls : pyclass) (attr : string) : option member :=
  match cls with
  | PyClass _ base dict =>
      match dict !! attr with
      | Some m => Some m
      | None =>
          match base with
          | Some b => class_lookup b attr
          | None => None
          end
      end
  end.

(** [cls.attr()], called on the class itself with no instance. *)
Definition class_call (cls : pyclass) (attr : string) : result pyval :=
  match class_lookup cls attr with
  | Some (classmethod r) => r
  | Some _ =>
      Raise (TypeError "missing 1 required positional argument: 'self'")
  | None => Raise (AttributeError attr)
  end.

(** ** Driver selection *)

(** Modelled from the spec: the registry and selector are not part of the
    sources at hand. A candidate is the driver descriptor of the data model
    (platform affinity, priority, availability probe) together with the
    outcome of constructing the driver and calling [initialize()] on it. *)
Record candidate := mkCandidate {
  cand_name : string;
  cand_platform : option string;
  cand_priority : Z;
  cand_available : bool;
  cand_initialize : bool
}.

(** Modelled from the spec: the descriptor of a driver class is read off its
    class-level queries, without constructing an instance; an availability
    probe that fails counts as unavailable, and the registry supplies the
    initialisation outcome. The class-level queries themselves are the
    source's. *)
Definition describe (cls : pyclass) (init_ok : bool) : result candidate :=
  let nm := match cls with PyClass n _ _ => n end in
  let avail :=
    match class_call cls "is_available" with
    | Ok (PyBool b) => b
    | _ => false
    end in
  match class_call cls "get_priority" with
  | Ok (PyInt prio) =>
      match class_call cls "get_platform_preference" with
      | Ok (PyStr p) => Ok (mkCandidate nm (Some p) prio avail init_ok)
      | Ok PyNone => Ok (mkCandidate nm None prio avail init_ok)
      | Ok _ => Raise (TypeError "platform preference must be str or None")
      | Raise e => Raise e
      end
  | Ok _ => Raise (TypeError "priority must be int")
  | Raise e => Raise e
  end.

(** Modelled from the spec: a candidate matches the target platform when its
    platform preference equals it; with no target known nothing matches. *)
Definition matches_platform (target : option string) (c : candidate) : bool :=
  match target, cand_platform c with
  | Some t, Some p => bool_decide (t = p)
  | _, _ => false
  end.

(** Modelled from the spec: platform-agnostic means the preference is none. *)
Definition platform_agnostic (c : candidate) : bool :=
  match cand_platform c with
  | None => true
  | Some _ => false
  end.

(** Modelled from the spec: the highest-priority candidate among those the
    predicate keeps, scanning in declaration order from index [i]; on equal
    priority the earlier declaration stays. *)
Fixpoint best (keep : nat → candidate → bool) (i : nat) (cs : list candidate)
  : option (nat * candidate) :=
  match cs with
  | [] => None
  | c :: rest =>
      if keep i c then
        match best keep (S i) rest with
        | Some (j, d) =>
            if cand_priority c <? cand_priority d then Some (j, d)
            else Some (i, c)
        | None => Some (i, c)
        end
      else best keep (S i) rest
  end.

(** Modelled from the spec: steps 1 to 3 of the selection algorithm on the
    candidates not yet removed from the pool: keep the available ones, take
    the best platform-matching one, and only when there is none the best
    platform-agnostic one. Candidates tied to another platform are never
    ranked. *)
Definition winner (target : option string) (cs : list candidate)
    (removed : gset nat) : option (nat * candidate) :=
  let live i c := bool_decide (i ∉ removed) && cand_available c in
  match best (λ i c, live i c && matches_platform target c) 0 cs with
  | Some r => Some r
  | None => best (λ i c, live i c && platform_agnostic c) 0 cs
  end.

Definition top_choice (target : option string) (cs : list candidate)
  : option (nat * candidate) :=
  winner target cs ∅.

(** Modelled from the spec: step 4, instantiate the winner and initialise it;
    on failure remove it from the pool and rank the remainder again; with no
    candidate left there is no usable driver ([None]). Every retry removes a
    candidate, so [S (length cs)] rounds always suffice. *)
Fixpoint select_from (rounds : nat) (target : option string)
    (cs : list candidate) (removed : gset nat) : option (nat * candidate) :=
  match rounds with
  | O => None
  | S rounds' =>
      match winner target cs removed with
      | None => None
      | Some (i, c) =>
          if cand_initialize c then Some (i, c)
          else select_from rounds' target cs ({[i]} ∪ removed)
      end
  end.

Definition select (target : option string) (cs : list candidate)
  : option (nat * candidate) :=
  select_from (S (length cs)) target cs ∅.

(** ** Sample drivers, backends and worlds *)

Definition small_driver : MacOSWindowDriver := MacOSWindowDriver_new 3 2 2.

(** A driver just constructed, in a process that has not touched Pygame. *)
Definition fresh_world : world := world_of small_driver pygame_fresh.

(** The rectangle of cell [(x, y)] at scale 2, and the six black rectangles
    [show] draws for an all-black 3 by 2 buffer, the last drawn first. *)
Definition cell_rect (x y : Z) : Rect := mkRect (x * 2) (y * 2) 2 2.

Definition black_cells : list (Rect * color) :=
  [(cell_rect 2 1, black); (cell_rect 1 1, black); (cell_rect 0 1, black);
   (cell_rect 2 0, black); (cell_rect 1 0, black); (cell_rect 0 0, black)].

(** The small driver after [initialize()] on a backend without failures: the
    window is open and shows the six black rectangles. *)

Definition ready_pygame : pygame :=
  {| pg_init := true;
     pg_display := Some {| surf_size := (6, 4); surf_fills := black_cells |};
     pg_window := black_cells;
     pg_caption := "MatrixOS - ZX Spectrum Edition";
     pg_queue := [];
     pg_pick_size := pick_on_1024_768 |}.

Definition ready_world : world :=
  {| self := set_buffer (Some [[black; black; black]; [black; black; black]])
               (set_screen (Some display_surface) small_driver);
     pg := ready_pygame;
     stdout := [] |}.

(** The ready driver after [set_pixel(1, 1, (255, 0, 0))]. *)
Definition red : color := (255, 0, 0).
Definition painted_world : world :=
  {| self := set_buffer (Some [[black; black; black]; [black; red; black]])
               (self ready_world);
     pg := ready_pygame;
     stdout := [] |}.

(** The window system delivers an event: it joins the end of the queue. *)
Definition post_event (ev : event) (w : world) : world :=
  {| self := self w;
     pg := {| pg_init := pg_init (pg w); pg_display := pg_display (pg w);
              pg_window := pg_window (pg w); pg_caption := pg_caption (pg w);
              pg_queue := pg_queue (pg w) ++ [ev];
              pg_pick_size := pg_pick_size (pg w) |};
     stdout := stdout w |}.

(** A key press ([pygame.K_UP]) and a window-close request. *)
Definition key_up_pressed : event := mkEvent KEYDOWN 1073741906.
Definition close_requested : event := mkEvent QUIT 0.

(** A machine without a usable video device: [pygame.init()] goes through,
    opening the window fails. *)
Definition no_video_device : pg_call → pygame → option exn := λ c _,
  match c with
  | call_set_mode _ => Some (PygameError "No available video device")
  | _ => None
  end.

(** A backend whose window opens but whose first buffer swap fails. *)
Definition flip_fails : pg_call → pygame → option exn := λ c _,
  match c with
  | call_flip => Some (PygameError "Unable to flip display")
  | _ => None
  end.

(** A user interrupt arriving inside [pygame.init()]. *)
Definition interrupted : pg_call → pygame → option exn := λ c _,
  match c with
  | call_init => Some KeyboardInterrupt
  | _ => None
  end.

(** Candidates for the selector: a terminal fallback and a high-priority
    generic driver, both platform-agnostic, and two window drivers for the
    same platform with the same priority. *)
Definition terminal_fallback : candidate :=
  mkCandidate "Terminal" None 0 true true.
Definition generic_high : candidate :=
  mkCandidate "Generic" None 90 true true.
Definition window_first : candidate :=
  mkCandidate "Window A" (Some "macos") 50 true true.
Definition window_second : candidate :=
  mkCandidate "Window B" (Some "macos") 50 true true.

(** * Specification predicates *)

(** A computation respects a relation between worlds when every run of it,
    returning or raising, relates the world before to the world after. *)
Definition respects {A} (R : relation world) (m : M A) : Prop :=
  ∀ w r w', m w = (r, w') → R w w'.

(** Every exception a computation can raise satisfies [P]. *)
Definition raises_only {A} (P : exn → Prop) (m : M A) : Prop :=
  ∀ w e w', m w = (Raise e, w') → P e.

(** The value of [self.buffer[y][x]] in a world. *)
Definition pixel (w : world) (x y : Z) : result color :=
  fst (buffer_getitem y x w).

(** [rows] is a grid of [H] rows of [W] cells each. *)
Definition is_grid (W H : Z) (rows : list (list color)) : Prop :=
  length rows = Z.to_nat H ∧ ∀ row, row ∈ rows → length row = Z.to_nat W.

(** The driver owns a frame buffer of its own dimensions. *)
Definition has_grid (w : world) : Prop :=
  ∃ rows, buffer (self w) = Some rows ∧
          is_grid (width (self w)) (height (self w)) rows.

(** Nothing but [self.buffer] differs between two worlds: Pygame, standard
    output and every other attribute of the driver are the same. *)
Definition only_buffer_changed (w w' : world) : Prop :=
  pg w' = pg w ∧ stdout w' = stdout w ∧
  ∃ b, self w' = set_buffer b (self w).

(** Nothing but [self.buffer] differs, and the cells of the [W] by [H] grid
    that were black still are. *)
Definition blackening (W H : Z) (w w' : world) : Prop :=
  only_buffer_changed w w' ∧
  ∀ x y, 0 ≤ x < W → 0 ≤ y < H →
         pixel w x y = Ok black → pixel w' x y = Ok black.

(** The driver owns its frame buffer and its dimensions are [W] by [H]:
    what the loops of [clear] maintain. *)
Definition owns_grid (W H : Z) (w : world) : Prop :=
  has_grid w ∧ width (self w) = W ∧ height (self w) = H.

(** The driver instance is untouched. *)
Definition same_self : relation world := λ w w', self w' = self w.

(** A property of worlds that, once true, stays true. *)
Definition preserves (P : world → Prop) : relation world :=
  λ w w', P w → P w'.

(** Pygame is initialised: [pygame.get_init()] would return [True]. *)
Definition pygame_up (w : world) : Prop := pg_init (pg w) = true.

(** No event is pending. *)
Definition queue_empty (w : world) : Prop := pg_queue (pg w) = [].

(** The environment only produces failures that are [Exception]s: a missing
    video device, a refused display mode and the like, not an interrupt. *)
Definition expected_faults (faults : pg_call → pygame → option exn) : Prop :=
  ∀ c p e, faults c p = Some e → is_Exception e = true.

(** The backend never fails. *)
Definition faultless (faults : pg_call → pygame → option exn) : Prop :=
  ∀ c p, faults c p = None.

(** Every cell of the grid holds a colour [pygame.draw] accepts. *)
Definition valid_grid (rows : list (list color)) : Prop :=
  ∀ row c, row ∈ rows → c ∈ row → valid_color c = true.

(** What the drawing loops of [show] need and maintain: the driver owns its
    [W] by [H] buffer, of valid colours, and holds a screen, and Pygame has
    a display surface. *)
Definition drawable (W H : Z) (w : world) : Prop :=
  owns_grid W H w ∧ screen (self w) = Some display_surface ∧
  is_Some (pg_display (pg w)) ∧
  ∀ rows, buffer (self w) = Some rows → valid_grid rows.

(** No constraint between two worlds. *)
Definition any_change : relation world := λ _ _, True.

(** ** What [show] draws, and the worlds the methods lead to *)

(** The rectangle [show] draws for cell [(x, y)] at scale [sc], with the
    colour it reads there; nothing where the buffer has no such cell. *)
Definition cell_draw (sc : Z) (rows : list (list color)) (y x : Z)
  : list (Rect * color) :=
  match grid_getitem rows y x with
  | Ok c => [(mkRect (x * sc) (y * sc) sc sc, c)]
  | Raise _ => []
  end.

(** All of them in the order of the two loops of [show]: row by row, and
    left to right within a row. *)
Definition rendering (W H sc : Z) (rows : list (list color))
  : list (Rect * color) :=
  y ← range H; x ← range W; cell_draw sc rows y x.

(** The world after the rectangles [extra] have been drawn on the display
    surface, one after the other. *)
Definition drawn (extra : list (Rect * color)) (w : world) : world :=
  {| self := self w;
     pg := {| pg_init := pg_init (pg w);
              pg_display :=
                (λ d, {| surf_size := surf_size d;
                         surf_fills := rev extra ++ surf_fills d |})
                <$> pg_display (pg w);
              pg_window := pg_window (pg w);
              pg_caption := pg_caption (pg w);
              pg_queue := pg_queue (pg w);
              pg_pick_size := pg_pick_size (pg w) |};
     stdout := stdout w |}.

(** The world with the event queue emptied. *)
Definition queue_drained (w : world) : world :=
  {| self := self w;
     pg := {| pg_init := pg_init (pg w); pg_display := pg_display (pg w);
              pg_window := pg_window (pg w); pg_caption := pg_caption (pg w);
              pg_queue := []; pg_pick_size := pg_pick_size (pg w) |};
     stdout := stdout w |}.

(** The world with the display surface copied to the window. *)
Definition flipped (w : world) : world :=
  {| self := self w;
     pg := {| pg_init := pg_init (pg w); pg_display := pg_display (pg w);
              pg_window := match pg_display (pg w) with
                           | Some d => surf_fills d
                           | None => pg_window (pg w)
                           end;
              pg_caption := pg_caption (pg w);
              pg_queue := pg_queue (pg w);
              pg_pick_size := pg_pick_size (pg w) |};
     stdout := stdout w |}.

(** What a [show] that returns leaves behind on a driver that owns [rows]:
    the queue emptied, every cell drawn, the surface flipped. *)
Definition shown (rows : list (list color)) (w : world) : world :=
  flipped
    (drawn (rendering (width (self w)) (height (self w)) (scale (self w)) rows)
       (queue_drained w)).

(** The all-black [W] by [H] grid. *)
Definition black_grid (W H : Z) : list (list color) :=
  replicate (Z.to_nat H) (replicate (Z.to_nat W) black).

(** The world a successful [initialize] leads to, from a driver [d], a
    Pygame state [p] and an output [out]. *)
Definition initialized (d : MacOSWindowDriver) (p : pygame) (out : list string)
  : world :=
  let rows := black_grid (width d) (height d) in
  let fills := rev (rendering (width d) (height d) (scale d) rows) in
  {| self := set_buffer (Some rows) (set_screen (Some display_surface) d);
     pg := {| pg_init := true;
              pg_display :=
                Some {| surf_size :=
                          window_size p (window_width d, window_height d);
                        surf_fills := fills |};
              pg_window := fills;
              pg_caption := "MatrixOS - ZX Spectrum Edition";
              pg_queue := [];
              pg_pick_size := pg_pick_size p |};
     stdout := out |}.

(** The driver is ready: it owns its buffer, holds its screen, and Pygame is
    initialised with a display surface. *)
Definition ready (w : world) : Prop :=
  drawable (width (self w)) (height (self w)) w ∧ pg_init (pg w) = true.

(** Standard output is untouched. *)
Definition same_stdout : relation world := λ w w', stdout w' = stdout w.

(** The calls an application makes on a driver frame after frame. *)
Inductive drawing_call :=
  | do_set_pixel (x y : Z) (c : color)
  | do_clear
  | do_show.

Definition run_call (faults : pg_call → pygame → option exn)
    (c : drawing_call) : M unit :=
  match c with
  | do_set_pixel x y c => set_pixel x y c
  | do_clear => clear
  | do_show => show faults
  end.

Definition run_calls (faults : pg_call → pygame → option exn)
    (cs : list drawing_call) : M unit :=
  for_each cs (run_call faults).

(** * Reasoning about computations *)

Lemma bind_inv {A B} (m : M A) (k : A → M B) w r w'' :
  (m ≫= k) w = (r, w'') →
  (∃ a w', m w = (Ok a, w') ∧ k a w' = (r, w'')) ∨
  (∃ e, m w = (Raise e, w'') ∧ r = Raise e).
Proof.
  unfold mbind, M_bind. destruct (m w) as [[a|e] w'] eqn:Hm; intros H.
  - left. eauto.
  - right. exists e. by inversion H.
Qed.

Lemma bind_ok {A B} (m : M A) (k : A → M B) w a w' :
  m w = (Ok a, w') → (m ≫= k) w = k a w'.
Proof. unfold mbind, M_bind. by intros ->. Qed.

Lemma bind_raise {A B} (m : M A) (k : A → M B) w e w' :
  m w = (Raise e, w') → (m ≫= k) w = (Raise e, w').
Proof. unfold mbind, M_bind. by intros ->. Qed.

Section Rules.
Context (R : relation world) `{!PreOrder R}.

Lemma respects_ret {A} (a : A) : respects R (mret a : M A).
Proof. intros w r w' H. inversion H. reflexivity. Qed.

Lemma respects_raise {A} e : respects R (raise e : M A).
Proof. intros w r w' H. inversion H. reflexivity. Qed.

Lemma respects_bind {A B} (m : M A) (k : A → M B) :
  respects R m → (∀ a, respects R (k a)) → respects R (m ≫= k).
Proof.
  intros Hm Hk w r w'' H.
  destruct (bind_inv _ _ _ _ _ H) as [(a & w' & H1 & H2)|(e & H1 & _)].
  - etrans; [by eapply Hm | by eapply Hk].
  - by eapply Hm.
Qed.

Lemma respects_for_each {A} (xs : list A) (body : A → M unit) :
  (∀ x, x ∈ xs → respects R (body x)) → respects R (for_each xs body).
Proof.
  induction xs as [|x xs IH]; intros Hbody; simpl.
  - apply respects_ret.
  - apply respects_bind.
    + apply Hbody. left.
    + intros _. apply IH. intros y Hy. apply Hbody. by right.
Qed.

Lemma respects_try_except {A} (body : M A) (handler : exn → M A) :
  respects R body → (∀ e, respects R (handler e)) →
  respects R (try_except body handler).
Proof.
  intros Hb Hh w r w'' H. unfold try_except in H.
  destruct (body w) as [[a|e] w'] eqn:Hbw.
  - inversion H; subst. by eapply Hb.
  - destruct (is_Exception e).
    + etrans; [by eapply Hb | by eapply Hh].
    + inversion H; subst. by eapply Hb.
Qed.

Lemma respects_get_self : respects R get_self.
Proof. intros w r w' H. inversion H. reflexivity. Qed.

Lemma respects_get_pg : respects R get_pg.
Proof. intros w r w' H. inversion H. reflexivity. Qed.

Lemma respects_buffer_getitem y x : respects R (buffer_getitem y x).
Proof.
  intros w r w' H. unfold buffer_getitem in H.
  destruct (buffer (self w)); inversion H; reflexivity.
Qed.

End Rules.

Lemma raises_only_ret {A} P (a : A) : raises_only P (mret a : M A).
Proof. intros w e w' H. inversion H. Qed.

Lemma raises_only_bind {A B} P (m : M A) (k : A → M B) :
  raises_only P m → (∀ a, raises_only P (k a)) → raises_only P (m ≫= k).
Proof.
  intros Hm Hk w e w'' H.
  destruct (bind_inv _ _ _ _ _ H) as [(a & w' & H1 & H2)|(e' & H1 & He)].
  - by eapply Hk.
  - inversion He; subst. by eapply Hm.
Qed.

Lemma raises_only_for_each {A} P (xs : list A) (body : A → M unit) :
  (∀ x, raises_only P (body x)) → raises_only P (for_each xs body).
Proof.
  intros Hbody. induction xs as [|x xs IH]; simpl.
  - apply raises_only_ret.
  - apply raises_only_bind; [apply Hbody | intros _; apply IH].
Qed.

(** The loop rule for loops that run to completion: every iteration keeps
    the invariant [I], moves the world along the preorder [R], and
    establishes [Q x] for its element; [Q] is stable along [R]. Then the loop
    returns, and [Q] holds of every element. *)
Lemma for_each_rule {A} (I : world → Prop) (R : relation world)
    (Q : A → world → Prop) `{!PreOrder R} (xs : list A) (body : A → M unit) :
  (∀ x w w', R w w' → Q x w → Q x w') →
  (∀ x w, x ∈ xs → I w →
     ∃ w', body x w = (Ok tt, w') ∧ I w' ∧ R w w' ∧ Q x w') →
  ∀ w, I w →
    ∃ w', for_each xs body w = (Ok tt, w') ∧ I w' ∧ R w w' ∧
          ∀ x, x ∈ xs → Q x w'.
Proof.
  intros Hstable. induction xs as [|x xs IH]; intros Hbody w HI; simpl.
  - exists w. split_and!; [done|done|reflexivity|]. intros x Hx. inversion Hx.
  - destruct (Hbody x w) as (w1 & Hrun & HI1 & HR1 & HQ1); [left|done|].
    destruct (IH (λ y w0 Hy, Hbody y w0 (list_elem_of_further _ _ _ Hy)) w1 HI1)
      as (w2 & Hrest & HI2 & HR2 & HQ2).
    exists w2. split_and!; [|done|by etrans|].
    + by rewrite (bind_ok _ _ _ _ _ Hrun).
    + intros y Hy. apply elem_of_cons in Hy as [->|Hy]; [|by apply HQ2].
      by eapply Hstable.
Qed.

(** * Python lists and the frame buffer *)

Lemma py_index_in_range {A} (l : list A) i :
  0 ≤ i < Z.of_nat (length l) → py_index l i = Some (Z.to_nat i).
Proof. intros Hi. unfold py_index. by rewrite bool_decide_eq_true_2. Qed.

Lemma py_getitem_in_range {A} (l : list A) i a :
  0 ≤ i → l !! Z.to_nat i = Some a → py_getitem l i = Ok a.
Proof.
  intros Hi Hl. unfold py_getitem.
  rewrite py_index_in_range, Hl; [done|].
  apply lookup_lt_Some in Hl. lia.
Qed.

Lemma is_grid_row W H rows y :
  is_grid W H rows → 0 ≤ y < H →
  ∃ row, rows !! Z.to_nat y = Some row ∧ length row = Z.to_nat W.
Proof.
  intros [Hlen Hrows] Hy.
  destruct (lookup_lt_is_Some_2 rows (Z.to_nat y)) as [row Hrow]; [lia|].
  exists row. split; [done|]. apply Hrows. by eapply list_elem_of_lookup_2.
Qed.

Lemma is_grid_insert W H rows k row :
  is_grid W H rows → length row = Z.to_nat W → is_grid W H (<[k := row]> rows).
Proof.
  intros [Hlen Hrows] Hrow. split; [by rewrite length_insert|].
  intros r Hr. apply list_elem_of_lookup in Hr as [j Hj].
  destruct (decide (k = j)) as [->|Hne].
  - destruct (decide (j < length rows)%nat).
    + rewrite list_lookup_insert_eq in Hj by done. congruence.
    + rewrite list_insert_ge in Hj by lia.
      apply Hrows. by eapply list_elem_of_lookup_2.
  - rewrite list_lookup_insert_ne in Hj by done.
    apply Hrows. by eapply list_elem_of_lookup_2.
Qed.

Lemma grid_getitem_lookup rows y x row c :
  0 ≤ y → 0 ≤ x →
  rows !! Z.to_nat y = Some row → row !! Z.to_nat x = Some c →
  grid_getitem rows y x = Ok c.
Proof.
  intros Hy Hx Hrow Hc. unfold grid_getitem.
  rewrite (py_getitem_in_range rows y row) by done.
  by apply py_getitem_in_range.
Qed.

(** Writing an in-range cell of a grid succeeds, keeps the grid's shape, is
    read back, and leaves every other in-range cell as it was. *)
Lemma grid_setitem_spec W H rows x y c :
  is_grid W H rows → 0 ≤ x < W → 0 ≤ y < H →
  ∃ rows', grid_setitem rows y x c = Ok rows' ∧
           is_grid W H rows' ∧
           grid_getitem rows' y x = Ok c ∧
           ∀ x' y', 0 ≤ x' < W → 0 ≤ y' < H → (x', y') ≠ (x, y) →
                    grid_getitem rows' y' x' = grid_getitem rows y' x'.
Proof.
  intros Hg Hx Hy.
  destruct (is_grid_row _ _ _ _ Hg Hy) as (row & Hrow & Hlen).
  pose proof Hg as [Hrows _].
  exists (<[Z.to_nat y := <[Z.to_nat x := c]> row]> rows). split_and!.
  - unfold grid_setitem, py_setitem.
    rewrite py_index_in_range, Hrow, py_index_in_range by lia. done.
  - apply is_grid_insert; [done|]. by rewrite length_insert.
  - eapply grid_getitem_lookup; [lia|lia| |].
    + apply list_lookup_insert_eq. lia.
    + apply list_lookup_insert_eq. lia.
  - intros x' y' Hx' Hy' Hne.
    destruct (is_grid_row _ _ _ _ Hg Hy') as (row' & Hrow' & Hlen').
    destruct (lookup_lt_is_Some_2 row' (Z.to_nat x')) as [c' Hc']; [lia|].
    rewrite (grid_getitem_lookup rows y' x' row' c') by (done || lia).
    destruct (decide (y' = y)) as [->|Hyne].
    + assert (row' = row) as -> by congruence.
      eapply grid_getitem_lookup; [lia|lia| |].
      * apply list_lookup_insert_eq. lia.
      * rewrite list_lookup_insert_ne; [done|]. intros Heq.
        apply Hne. f_equal. lia.
    + eapply grid_getitem_lookup; [lia|lia| |done].
      rewrite list_lookup_insert_ne; [done|]. lia.
Qed.

Lemma buffer_getitem_pixel y x w :
  buffer_getitem y x w = (pixel w x y, w).
Proof. unfold pixel, buffer_getitem. by destruct (buffer (self w)). Qed.

Global Instance only_buffer_changed_preorder : PreOrder only_buffer_changed.
Proof.
  split.
  - intros w. split_and!; [done|done|].
    exists (buffer (self w)). by destruct (self w).
  - intros w1 w2 w3 (Hp1 & Ho1 & b1 & Hs1) (Hp2 & Ho2 & b2 & Hs2).
    split_and!; [congruence|congruence|].
    exists b2. rewrite Hs2, Hs1. done.
Qed.

Global Instance blackening_preorder W H : PreOrder (blackening W H).
Proof.
  split.
  - intros w. split; [reflexivity|done].
  - intros w1 w2 w3 [Hf1 Hb1] [Hf2 Hb2]. split; [by etrans|]. eauto.
Qed.

Lemma only_buffer_changed_dims w w' :
  only_buffer_changed w w' →
  width (self w') = width (self w) ∧ height (self w') = height (self w) ∧
  screen (self w') = screen (self w) ∧ scale (self w') = scale (self w).
Proof. intros (_ & _ & b & ->). done. Qed.

(** [self.buffer[y][x] = c] on an in-range cell of a driver that owns its
    grid. *)
Lemma buffer_setitem_spec w x y c :
  has_grid w → 0 ≤ x < width (self w) → 0 ≤ y < height (self w) →
  ∃ w', buffer_setitem y x c w = (Ok tt, w') ∧
        has_grid w' ∧ only_buffer_changed w w' ∧
        pixel w' x y = Ok c ∧
        ∀ x' y', 0 ≤ x' < width (self w) → 0 ≤ y' < height (self w) →
                 (x', y') ≠ (x, y) → pixel w' x' y' = pixel w x' y'.
Proof.
  intros (rows & Hbuf & Hg) Hx Hy.
  destruct (grid_setitem_spec _ _ _ x y c Hg Hx Hy)
    as (rows' & Hset & Hg' & Hread & Hframe).
  eexists. unfold buffer_setitem. rewrite Hbuf, Hset. split_and!.
  - done.
  - exists rows'. done.
  - split_and!; [done|done|]. by eexists.
  - unfold pixel, buffer_getitem. simpl. done.
  - intros x' y' Hx' Hy' Hne. unfold pixel, buffer_getitem. simpl.
    rewrite Hbuf. simpl. by apply Hframe.
Qed.

(** * [set_pixel] and [clear] *)

Lemma in_range_test x y W H :
  (0 <=? x) && (x <? W) && ((0 <=? y) && (y <? H)) = true ↔
  0 ≤ x < W ∧ 0 ≤ y < H.
Proof. rewrite !andb_true_iff, !Z.leb_le, !Z.ltb_lt. lia. Qed.

Lemma set_pixel_unfold x y c w :
  set_pixel x y c w =
  if (0 <=? x) && (x <? width (self w)) && ((0 <=? y) && (y <? height (self w)))
  then buffer_setitem y x c w else (Ok tt, w).
Proof.
  unfold set_pixel, mbind, M_bind, get_self.
  by destruct (_ && _).
Qed.

(** C1. In a driver that owns a [width] by [height] buffer, [set_pixel] on an
    in-range coordinate returns without raising, the buffer read back at
    that coordinate gives the colour written, and nothing else changes (not
    any other cell, not Pygame, not the driver's other attributes). On an
    out-of-range coordinate [set_pixel] returns without raising and leaves
    the whole world, hence every buffer cell, as it was; this half needs no
    assumption on the buffer. *)
Theorem set_pixel_in_range_writes_out_of_range_ignored w x y c :
  (has_grid w → 0 ≤ x < width (self w) ∧ 0 ≤ y < height (self w) →
   ∃ w', set_pixel x y c w = (Ok tt, w') ∧
         buffer_getitem y x w' = (Ok c, w') ∧
         has_grid w' ∧ only_buffer_changed w w' ∧
         ∀ x' y', 0 ≤ x' < width (self w) → 0 ≤ y' < height (self w) →
                  (x', y') ≠ (x, y) → pixel w' x' y' = pixel w x' y') ∧
  (¬ (0 ≤ x < width (self w) ∧ 0 ≤ y < height (self w)) →
   set_pixel x y c w = (Ok tt, w)).
Proof.
  split.
  - intros Hg [Hx Hy].
    destruct (buffer_setitem_spec w x y c Hg Hx Hy)
      as (w' & Hset & Hg' & Hfr & Hread & Hothers).
    exists w'. split_and!; try done.
    + rewrite set_pixel_unfold.
      by rewrite (proj2 (in_range_test x y _ _) (conj Hx Hy)).
    + by rewrite buffer_getitem_pixel, Hread.
  - intros Hout. rewrite set_pixel_unfold.
    destruct (_ && _) eqn:Htest; [|done].
    apply in_range_test in Htest. contradiction.
Qed.

Ltac concrete_grid :=
  eexists; split; [reflexivity|];
  split; [reflexivity|];
  let Hrow := fresh in
  intros ? Hrow;
  repeat (apply elem_of_cons in Hrow as [->|Hrow]; [reflexivity|]);
  by apply elem_of_nil in Hrow.

(** The sample worlds are the ones the code reaches. *)
Example ready_world_reached :
  initialize no_faults fresh_world = (Ok true, ready_world).
Proof. vm_compute. reflexivity. Qed.

Example painted_world_reached :
  set_pixel 1 1 red ready_world = (Ok tt, painted_world).
Proof. vm_compute. reflexivity. Qed.

Lemma ready_world_has_grid : has_grid ready_world.
Proof. concrete_grid. Qed.

Lemma painted_world_has_grid : has_grid painted_world.
Proof. concrete_grid. Qed.

Lemma set_pixel_in_range_writes_out_of_range_ignored_witness :
  has_grid ready_world ∧
  (0 ≤ 1 < width (self ready_world) ∧ 0 ≤ 1 < height (self ready_world)) ∧
  (∃ w', set_pixel 1 1 red ready_world = (Ok tt, w') ∧
         buffer_getitem 1 1 w' = (Ok red, w')) ∧
  ¬ (0 ≤ 3 < width (self ready_world) ∧ 0 ≤ 0 < height (self ready_world)) ∧
  set_pixel 3 0 red ready_world = (Ok tt, ready_world).
Proof.
  assert (0 ≤ 1 < width (self ready_world) ∧ 0 ≤ 1 < height (self ready_world))
    as Hin by (cbn; lia).
  assert (¬ (0 ≤ 3 < width (self ready_world) ∧
             0 ≤ 0 < height (self ready_world)))
    as Hout by (cbn; lia).
  split; [exact ready_world_has_grid|]. split; [exact Hin|].
  split.
  - destruct (proj1 (set_pixel_in_range_writes_out_of_range_ignored
                       ready_world 1 1 red) ready_world_has_grid Hin)
      as (w' & Hset & Hread & _).
    exists w'. split; [exact Hset|exact Hread].
  - split; [exact Hout|].
    exact (proj2 (set_pixel_in_range_writes_out_of_range_ignored
                    ready_world 3 0 red) Hout).
Defined.

Section Clear.
Variables W H : Z.

Lemma clear_cell w x y :
  owns_grid W H w → 0 ≤ x < W → 0 ≤ y < H →
  ∃ w', buffer_setitem y x black w = (Ok tt, w') ∧ owns_grid W H w' ∧
        blackening W H w w' ∧ pixel w' x y = Ok black.
Proof.
  intros (Hg & HW & HH) Hx Hy.
  destruct (buffer_setitem_spec w x y black Hg) as
    (w' & Hset & Hg' & Hfr & Hread & Hothers); [lia|lia|].
  destruct (only_buffer_changed_dims _ _ Hfr) as (HW' & HH' & _).
  exists w'. split; [done|]. split; [|split; [|done]].
  - split; [done|]. split; congruence.
  - split; [done|]. intros x' y' Hx' Hy' Hblack.
    destruct (decide ((x', y') = (x, y))) as [Heq|Hne].
    + by inversion Heq; subst.
    + rewrite Hothers; [done|lia|lia|done].
Qed.

Lemma clear_row w y :
  owns_grid W H w → 0 ≤ y < H →
  ∃ w', for_each (range W) (λ x, buffer_setitem y x black) w = (Ok tt, w') ∧
        owns_grid W H w' ∧ blackening W H w w' ∧
        ∀ x, 0 ≤ x < W → pixel w' x y = Ok black.
Proof.
  intros Hown Hy.
  destruct (for_each_rule (owns_grid W H) (blackening W H)
              (λ x w, 0 ≤ x < W → pixel w x y = Ok black)
              (range W) (λ x, buffer_setitem y x black)) with (w := w)
    as (w' & Hrun & Hown' & HR & HQ).
  - intros x w1 w2 [_ Hkeep] HQ Hx. apply Hkeep; [done|done|by apply HQ].
  - intros x w1 Hin Hown1. apply elem_of_seqZ in Hin.
    destruct (clear_cell w1 x y Hown1) as (w2 & ? & ? & ? & ?); [lia|done|].
    exists w2. by split_and!.
  - done.
  - exists w'. split_and!; try done.
    intros x Hx. apply HQ; [|done]. apply elem_of_seqZ. lia.
Qed.

Lemma clear_rows w :
  owns_grid W H w →
  ∃ w', clear w = (Ok tt, w') ∧ owns_grid W H w' ∧ blackening W H w w' ∧
        ∀ x y, 0 ≤ x < W → 0 ≤ y < H → pixel w' x y = Ok black.
Proof.
  intros Hown.
  assert (clear w =
          for_each (range H) (λ y, d ← get_self;
            for_each (range (width d)) (λ x, buffer_setitem y x black)) w)
    as ->.
  { unfold clear. unfold mbind at 1, M_bind at 1, get_self at 1.
    by destruct Hown as (_ & _ & ->). }
  destruct (for_each_rule (owns_grid W H) (blackening W H)
              (λ y w, 0 ≤ y < H → ∀ x, 0 ≤ x < W → pixel w x y = Ok black)
              (range H)
              (λ y, d ← get_self;
                 for_each (range (width d)) (λ x, buffer_setitem y x black)))
    with (w := w) as (w' & Hrun & Hown' & HR & HQ).
  - intros y w1 w2 [_ Hkeep] HQ Hy x Hx. apply Hkeep; [done|done|by apply HQ].
  - intros y w1 Hin Hown1. apply elem_of_seqZ in Hin.
    destruct (clear_row w1 y Hown1) as (w2 & Hrun & ? & ? & Hrow); [lia|].
    exists w2. split_and!; try done.
    unfold mbind, M_bind, get_self.
    by destruct Hown1 as (_ & -> & _).
  - done.
  - exists w'. split_and!; try done.
    intros x y Hx Hy. apply HQ; [|done|done]. apply elem_of_seqZ. lia.
Qed.

End Clear.

(** [clear] on a driver that owns its buffer: it returns, every in-range
    cell then reads black, and only the buffer has changed. *)
Lemma clear_blackens_owned_buffer w :
  has_grid w →
  ∃ w', clear w = (Ok tt, w') ∧
        (∀ x y, 0 ≤ x < width (self w) → 0 ≤ y < height (self w) →
                pixel w' x y = Ok black) ∧
        has_grid w' ∧ only_buffer_changed w w'.
Proof.
  intros Hg.
  destruct (clear_rows (width (self w)) (height (self w)) w)
    as (w' & Hrun & (Hg' & _ & _) & [Hfr _] & Hblack); [done|].
  exists w'. by split_and!.
Qed.

(** C5. In an initialised driver (one that owns its [width] by [height]
    buffer), whatever the buffer holds, [clear] returns without raising and
    afterwards every in-range cell reads black. [clear] does not call
    [show]: Pygame's state, and with it what the window shows, is exactly
    what it was, and so are standard output and every attribute of the
    driver other than the buffer. *)
Theorem clear_blackens_buffer_and_leaves_window w :
  has_grid w →
  ∃ w', clear w = (Ok tt, w') ∧
        (∀ x y, 0 ≤ x < width (self w) → 0 ≤ y < height (self w) →
                buffer_getitem y x w' = (Ok black, w')) ∧
        has_grid w' ∧
        pg w' = pg w ∧ pg_window (pg w') = pg_window (pg w) ∧
        only_buffer_changed w w'.
Proof.
  intros Hg.
  destruct (clear_blackens_owned_buffer w Hg)
    as (w' & Hrun & Hblack & Hg' & Hfr).
  exists w'. pose proof Hfr as (Hpg & _ & _).
  split_and!; try done; [|by rewrite Hpg].
  intros x y Hx Hy. rewrite buffer_getitem_pixel. by rewrite Hblack.
Qed.

Lemma clear_blackens_buffer_and_leaves_window_witness :
  has_grid painted_world ∧
  buffer_getitem 1 1 painted_world = (Ok red, painted_world) ∧
  ∃ w', clear painted_world = (Ok tt, w') ∧
        buffer_getitem 1 1 w' = (Ok black, w') ∧
        pg_window (pg w') = pg_window (pg painted_world).
Proof.
  split; [exact painted_world_has_grid|].
  split; [vm_compute; reflexivity|].
  destruct (clear_blackens_buffer_and_leaves_window painted_world
              painted_world_has_grid)
    as (w' & Hclear & Hblack & _ & _ & Hwindow & _).
  exists w'. split; [exact Hclear|]. split; [|exact Hwindow].
  apply Hblack; cbn; lia.
Defined.

(** * What the Pygame calls and the methods leave alone *)

Global Instance same_self_preorder : PreOrder same_self.
Proof. split; [done|]. intros w1 w2 w3. unfold same_self. congruence. Qed.

Global Instance preserves_preorder P : PreOrder (preserves P).
Proof. split; unfold preserves; [by intros w|intros w1 w2 w3; tauto]. Qed.

Create HintDb frames.

Ltac order_goal :=
  lazymatch goal with
  | |- PreOrder _ => apply _
  | |- _ => idtac
  end.

Ltac respects_step :=
  first
    [ assumption
    | solve [eauto with frames]
    | apply respects_ret; order_goal
    | apply respects_raise; order_goal
    | apply respects_get_self; order_goal
    | apply respects_get_pg; order_goal
    | apply respects_buffer_getitem; order_goal
    | apply respects_bind; order_goal; [|intros ?]
    | apply respects_for_each; order_goal; intros ? _
    | match goal with
      | |- respects _ (match ?x with _ => _ end) => destruct x
      end ].
Ltac respects_tac := repeat respects_step.

(** A Pygame call either raises at once, leaving the world as it is, or runs
    on the module state it found. *)
Lemma respects_guarded {A} faults (R : relation world) `{!PreOrder R} c
    (run : pygame → M A) :
  (∀ w r w', run (pg w) w = (r, w') → R w w') →
  respects R (guarded faults c run).
Proof.
  intros Hrun w r w' H. unfold guarded, mbind, M_bind, get_pg in H.
  destruct (faults c (pg w)).
  - inversion H. reflexivity.
  - by eapply Hrun.
Qed.

Ltac pygame_call :=
  intros; apply respects_guarded; [apply _|];
  let H := fresh in
  intros ? ? ? H;
  unfold mbind, M_bind, mret, M_ret, put_pg, raise in H; simpl in H;
  repeat case_match; simplify_eq;
  unfold same_self, preserves, pygame_up, queue_empty; simpl; done.

Section Frames.
Variable faults : pg_call → pygame → option exn.

Lemma same_self_pygame_init : respects same_self (pygame_init faults).
Proof. unfold pygame_init. pygame_call. Qed.
Lemma same_self_set_mode size : respects same_self (display_set_mode faults size).
Proof. unfold display_set_mode. pygame_call. Qed.
Lemma same_self_set_caption t : respects same_self (display_set_caption faults t).
Proof. unfold display_set_caption. pygame_call. Qed.
Lemma same_self_event_get : respects same_self (event_get faults).
Proof. unfold event_get. pygame_call. Qed.
Lemma same_self_draw_rect s c r : respects same_self (draw_rect faults s c r).
Proof. unfold draw_rect. pygame_call. Qed.
Lemma same_self_flip : respects same_self (display_flip faults).
Proof. unfold display_flip. pygame_call. Qed.

Lemma pygame_up_set_mode size :
  respects (preserves pygame_up) (display_set_mode faults size).
Proof. unfold display_set_mode. pygame_call. Qed.
Lemma pygame_up_set_caption t :
  respects (preserves pygame_up) (display_set_caption faults t).
Proof. unfold display_set_caption. pygame_call. Qed.
Lemma pygame_up_event_get : respects (preserves pygame_up) (event_get faults).
Proof. unfold event_get. pygame_call. Qed.
Lemma pygame_up_draw_rect s c r :
  respects (preserves pygame_up) (draw_rect faults s c r).
Proof. unfold draw_rect. pygame_call. Qed.
Lemma pygame_up_flip : respects (preserves pygame_up) (display_flip faults).
Proof. unfold display_flip. pygame_call. Qed.

Lemma queue_empty_draw_rect s c r :
  respects (preserves queue_empty) (draw_rect faults s c r).
Proof. unfold draw_rect. pygame_call. Qed.
Lemma queue_empty_flip : respects (preserves queue_empty) (display_flip faults).
Proof. unfold display_flip. pygame_call. Qed.

End Frames.

(** Changes to the driver instance or to standard output do not touch
    Pygame. *)
Lemma pygame_only_modify_self P f :
  (∀ w w', pg w' = pg w → P w → P w') → respects (preserves P) (modify_self f).
Proof. intros HP w r w' H Hw. inversion H; subst. by apply (HP w). Qed.

Lemma pygame_only_print P line :
  (∀ w w', pg w' = pg w → P w → P w') → respects (preserves P) (print line).
Proof. intros HP w r w' H Hw. inversion H; subst. by apply (HP w). Qed.

Lemma pygame_only_buffer_setitem P y x c :
  (∀ w w', pg w' = pg w → P w → P w') →
  respects (preserves P) (buffer_setitem y x c).
Proof.
  intros HP w r w' H Hw. unfold buffer_setitem in H.
  repeat case_match; simplify_eq; (eapply HP; [|eassumption]; done).
Qed.

Lemma pygame_up_pg w w' : pg w' = pg w → pygame_up w → pygame_up w'.
Proof. unfold pygame_up. by intros ->. Qed.

Lemma queue_empty_pg w w' : pg w' = pg w → queue_empty w → queue_empty w'.
Proof. unfold queue_empty. by intros ->. Qed.

#[global] Hint Resolve same_self_pygame_init same_self_set_mode
  same_self_set_caption same_self_event_get same_self_draw_rect
  same_self_flip pygame_up_set_mode pygame_up_set_caption pygame_up_event_get
  pygame_up_draw_rect pygame_up_flip queue_empty_draw_rect queue_empty_flip
  : frames.
#[global] Hint Resolve pygame_up_pg queue_empty_pg : frames.
#[global] Hint Extern 1 (respects (preserves _) (modify_self _)) =>
  apply pygame_only_modify_self : frames.
#[global] Hint Extern 1 (respects (preserves _) (print _)) =>
  apply pygame_only_print : frames.
#[global] Hint Extern 1 (respects (preserves _) (buffer_setitem _ _ _)) =>
  apply pygame_only_buffer_setitem : frames.

Lemma respects_clear R `{!PreOrder R} :
  (∀ y x c, respects R (buffer_setitem y x c)) → respects R clear.
Proof. intros Hset. unfold clear. respects_tac. Qed.

Lemma respects_show faults R `{!PreOrder R} :
  respects R (event_get faults) →
  (∀ s c r, respects R (draw_rect faults s c r)) →
  respects R (display_flip faults) →
  respects R (show faults).
Proof. intros Hget Hdraw Hflip. unfold show. respects_tac. Qed.

(** [show] only reads the driver: no attribute, the buffer included, is
    changed by it, however it ends. *)
Lemma show_same_self faults : respects same_self (show faults).
Proof. apply respects_show; order_goal; eauto with frames. Qed.

Lemma show_keeps_pygame_up faults :
  respects (preserves pygame_up) (show faults).
Proof. apply respects_show; order_goal; eauto with frames. Qed.

Lemma clear_keeps_pygame_up : respects (preserves pygame_up) clear.
Proof. apply respects_clear; order_goal; eauto with frames. Qed.

(** * [show] *)

(** C10. While the driver has no screen, as from construction until
    [initialize()] has opened the window, [show] returns at once without
    raising: the world after it is the world before it, so neither the frame
    buffer nor Pygame (event queue, display surface, window) is touched,
    whatever Pygame would do if it were called. *)
Theorem show_without_screen_is_noop faults w :
  screen (self w) = None → show faults w = (Ok tt, w).
Proof.
  intros Hscreen. unfold show, mbind, M_bind, get_self. by rewrite Hscreen.
Qed.

Lemma show_without_screen_is_noop_witness :
  screen (self (post_event key_up_pressed fresh_world)) = None ∧
  show flip_fails (post_event key_up_pressed fresh_world)
  = (Ok tt, post_event key_up_pressed fresh_world).
Proof.
  split; [reflexivity|].
  apply (show_without_screen_is_noop flip_fails
           (post_event key_up_pressed fresh_world)).
  reflexivity.
Defined.

Lemma event_get_empties_queue faults w evs w' :
  event_get faults w = (Ok evs, w') → evs = pg_queue (pg w) ∧ queue_empty w'.
Proof.
  unfold event_get, guarded, mbind, M_bind, get_pg, put_pg, raise, mret, M_ret.
  intros H. repeat case_match; simplify_eq. done.
Qed.

(** Whenever [show] gets as far as returning on a driver that has a screen,
    the event queue is empty afterwards: [pygame.event.get()] has taken
    every pending event out of it, key presses and close requests alike. *)
Lemma show_empties_queue faults w w' :
  screen (self w) ≠ None → show faults w = (Ok tt, w') → pg_queue (pg w') = [].
Proof.
  intros Hscreen. unfold show.
  unfold mbind at 1, M_bind at 1, get_self at 1.
  destruct (screen (self w)) as [s|]; [clear Hscreen|done].
  intros H.
  apply bind_inv in H as [(evs & w1 & Hget & Hrest)|(e & _ & ?)]; [|done].
  apply event_get_empties_queue in Hget as [_ Hempty].
  revert Hrest Hempty.
  match goal with
  | |- ?m w1 = _ → _ =>
      assert (respects (preserves queue_empty) m) as Hm by respects_tac
  end.
  intros Hrest. by apply Hm in Hrest.
Qed.

(** C4 (the code does otherwise). A ready driver, one key press pending:
    [show] returns, and the key press is gone from the queue, so no later
    [pygame.event.get()] by an input driver can report it. The same happens
    to a pending window-close request, which the source's own comment
    leaves to the input system. *)
Theorem show_consumes_pending_input_events :
  screen (self ready_world) = Some display_surface ∧
  pg_queue (pg (post_event key_up_pressed ready_world)) = [key_up_pressed] ∧
  (∃ w', show no_faults (post_event key_up_pressed ready_world) = (Ok tt, w') ∧
         pg_queue (pg w') = []) ∧
  (∃ w', show no_faults (post_event close_requested ready_world) = (Ok tt, w') ∧
         pg_queue (pg w') = []).
Proof.
  split; [reflexivity|]. split; [reflexivity|].
  split; eexists; (split; [vm_compute; reflexivity|reflexivity]).
Qed.

(** * [cleanup] *)

Lemma cleanup_unfold w :
  cleanup w =
  if pg_init (pg w)
  then (Ok tt, {| self := self w;
                  pg := {| pg_init := false; pg_display := None;
                           pg_window := []; pg_caption := "";
                           pg_queue := [];
                           pg_pick_size := pg_pick_size (pg w) |};
                  stdout := stdout w |})
  else (Ok tt, w).
Proof.
  unfold cleanup, pygame_get_init, pygame_quit, mbind, M_bind, get_pg, put_pg,
    mret, M_ret.
  by destruct (pg_init (pg w)).
Qed.

(** [cleanup] always returns, and Pygame is shut down afterwards. *)
Lemma cleanup_shuts_pygame_down w :
  ∃ w', cleanup w = (Ok tt, w') ∧ pg_init (pg w') = false ∧
        self w' = self w ∧ stdout w' = stdout w ∧
        (pg_init (pg w) = true → pg_display (pg w') = None) ∧
        (pg_init (pg w) = false → w' = w).
Proof.
  rewrite cleanup_unfold. destruct (pg_init (pg w)) eqn:Hinit.
  - eexists. split; [done|]. simpl. by split_and!.
  - exists w. by split_and!.
Qed.

(** C6 (as amended). [cleanup] never raises, in any state, and calling it
    again has no further effect. It is a no-op exactly when Pygame is not
    initialised, as for a driver on which [initialize()] was never called in
    a process that has not initialised Pygame; when Pygame is initialised,
    also by an [initialize()] that went on to fail, [cleanup] shuts it down
    and the window goes with it. The driver's own attributes are never
    touched. *)
Theorem cleanup_never_raises_and_is_idempotent w :
  ∃ w', cleanup w = (Ok tt, w') ∧
        cleanup w' = (Ok tt, w') ∧
        self w' = self w ∧
        (pg_init (pg w) = false → w' = w) ∧
        (pg_init (pg w) = true →
         pg_init (pg w') = false ∧ pg_display (pg w') = None ∧ w' ≠ w).
Proof.
  destruct (cleanup_shuts_pygame_down w)
    as (w' & Hrun & Hdown & Hself & _ & Hquit & Hnoop).
  exists w'. split_and!; try done.
  - destruct (cleanup_shuts_pygame_down w') as (w'' & Hrun' & _ & _ & _ & _ & Hsame).
    by rewrite Hrun', (Hsame Hdown).
  - intros Hup. split_and!; [done|by apply Hquit|]. intros ->. congruence.
Qed.

Lemma cleanup_never_raises_and_is_idempotent_witness :
  pg_init (pg fresh_world) = false ∧
  pg_init (pg ready_world) = true ∧
  cleanup fresh_world = (Ok tt, fresh_world) ∧
  ∃ w', cleanup ready_world = (Ok tt, w') ∧ pg_init (pg w') = false.
Proof.
  split; [reflexivity|]. split; [reflexivity|].
  split.
  - destruct (cleanup_never_raises_and_is_idempotent fresh_world)
      as (w' & Hrun & _ & _ & Hnoop & _).
    rewrite Hrun. f_equal. apply Hnoop. reflexivity.
  - destruct (cleanup_never_raises_and_is_idempotent ready_world)
      as (w' & Hrun & _ & _ & _ & Hquit).
    exists w'. split; [exact Hrun|]. apply Hquit. reflexivity.
Defined.

(** C6 as stated fails: on a machine without a video device [initialize()]
    returns false, and the [cleanup()] that follows is not a no-op, it
    changes the world by shutting down the Pygame that [pygame.init()] had
    brought up. *)
Lemma cleanup_after_failed_initialize_is_not_noop :
  ∃ w1 w2, initialize no_video_device fresh_world = (Ok false, w1) ∧
           cleanup w1 = (Ok tt, w2) ∧ w2 ≠ w1.
Proof.
  eexists _, _. split; [vm_compute; reflexivity|].
  split; [vm_compute; reflexivity|]. intros H. discriminate H.
Qed.

(** * [initialize] *)

Lemma raises_only_guarded {A} faults P c (run : pygame → M A) :
  (∀ p e, faults c p = Some e → P e) →
  (∀ p, raises_only P (run p)) →
  raises_only P (guarded faults c run).
Proof.
  intros Hf Hrun w e w' H. unfold guarded, mbind, M_bind, get_pg in H.
  destruct (faults c (pg w)) eqn:Hc.
  - inversion H; subst. by eapply Hf.
  - by eapply Hrun.
Qed.

Lemma raises_only_raise {A} (P : exn → Prop) e :
  P e → raises_only P (raise e : M A).
Proof. intros HP w e' w' H. by inversion H; subst. Qed.

Lemma raises_only_total {A} P (m : M A) :
  (∀ w, ∃ a w', m w = (Ok a, w')) → raises_only P m.
Proof. intros Hm w e w' H. destruct (Hm w) as (a & w1 & Ha). congruence. Qed.

Lemma raises_only_buffer_getitem y x :
  raises_only (λ e, is_Exception e = true) (buffer_getitem y x).
Proof.
  intros w e w' H.
  unfold buffer_getitem, grid_getitem, py_getitem in H.
  repeat case_match; simplify_eq; done.
Qed.

Lemma raises_only_buffer_setitem y x c :
  raises_only (λ e, is_Exception e = true) (buffer_setitem y x c).
Proof.
  intros w e w' H.
  unfold buffer_setitem, grid_setitem, py_setitem in H.
  repeat case_match; simplify_eq; done.
Qed.

Ltac raises_step :=
  first
    [ apply raises_only_ret
    | apply raises_only_buffer_getitem
    | apply raises_only_buffer_setitem
    | apply raises_only_raise; reflexivity
    | apply raises_only_total; intros; by repeat eexists
    | apply raises_only_guarded; [by eauto|intros ?]
    | apply raises_only_bind; [|intros ?]
    | apply raises_only_for_each; intros ?
    | match goal with
      | |- raises_only _ (match ?x with _ => _ end) => destruct x
      end ].
Ltac raises_tac := repeat raises_step.

(** With a backend that only fails in expected ways, nothing but an
    [Exception] comes out of the [try] block. *)
Lemma initialize_try_raises_Exception faults :
  expected_faults faults →
  raises_only (λ e, is_Exception e = true) (initialize_try faults).
Proof.
  intros Hexp.
  unfold initialize_try, pygame_init, display_set_mode, display_set_caption,
    clear, show, event_get, draw_rect, display_flip.
  raises_tac.
Qed.

Lemma pygame_init_ok faults w r w' :
  pygame_init faults w = (r, w') → faults call_init (pg w) = None →
  r = Ok tt ∧ pygame_up w'.
Proof.
  unfold pygame_init, guarded, mbind, M_bind, get_pg, put_pg.
  intros H Hnone. rewrite Hnone in H. by simplify_eq.
Qed.

(** Once [pygame.init()] has gone through, Pygame is still initialised when
    the [try] block ends, however it ends. *)
Lemma initialize_try_keeps_pygame_up faults w r w' :
  initialize_try faults w = (r, w') → faults call_init (pg w) = None →
  pygame_up w'.
Proof.
  unfold initialize_try. intros H Hnone.
  apply bind_inv in H as [(a & w1 & Hinit & Hrest)|(e & Hinit & _)].
  - apply pygame_init_ok in Hinit as [_ Hup]; [|done].
    revert Hrest Hup.
    match goal with
    | |- ?m w1 = _ → _ =>
        assert (respects (preserves pygame_up) m) as Hm
    end.
    { pose proof (show_keeps_pygame_up faults).
      pose proof clear_keeps_pygame_up. respects_tac. }
    intros Hrest. by apply Hm in Hrest.
  - by apply pygame_init_ok in Hinit as [? _].
Qed.

(** C3 (as amended). With a backend that fails only in expected ways
    (Pygame errors, not interrupts), [initialize] never raises: it returns a
    boolean. When a call inside it fails the boolean is false, and nothing is
    rolled back: the driver and Pygame are left exactly as they were at the
    point of failure. In particular Pygame stays initialised whenever
    [pygame.init()] itself went through. What was acquired is released by
    the [cleanup()] that follows, which returns with Pygame shut down and no
    display surface left. *)
Theorem initialize_failure_returns_false_without_rollback faults w :
  expected_faults faults →
  ∃ b w', initialize faults w = (Ok b, w') ∧
          (∀ e w1, initialize_try faults w = (Raise e, w1) →
                   b = false ∧ self w' = self w1 ∧ pg w' = pg w1) ∧
          (faults call_init (pg w) = None → pg_init (pg w') = true) ∧
          ∃ w'', cleanup w' = (Ok tt, w'') ∧ pg_init (pg w'') = false ∧
                 (pg_init (pg w') = true → pg_display (pg w'') = None).
Proof.
  intros Hexp. unfold initialize, try_except.
  destruct (initialize_try faults w) as [[b|e] w1] eqn:Htry.
  - exists b, w1. split_and!; [done|by intros ? ? [=]| |].
    + intros Hnone. by eapply initialize_try_keeps_pygame_up.
    + destruct (cleanup_shuts_pygame_down w1) as (w2 & ? & ? & _ & _ & ? & _).
      by exists w2.
  - rewrite (initialize_try_raises_Exception faults Hexp _ _ _ Htry).
    eexists false, _. split; [reflexivity|]. simpl. split_and!.
    + by intros ? ? [= <- <-].
    + intros Hnone. by eapply initialize_try_keeps_pygame_up.
    + match goal with
      | |- ∃ w'', cleanup ?w = _ ∧ _ =>
          destruct (cleanup_shuts_pygame_down w) as (w2 & ? & ? & _ & _ & ? & _)
      end.
      by exists w2.
Qed.

Lemma no_video_device_expected : expected_faults no_video_device.
Proof. intros c p e. destruct c; simpl; intros [= <-]; reflexivity. Qed.

Lemma initialize_failure_returns_false_without_rollback_witness :
  expected_faults no_video_device ∧
  ∃ b w', initialize no_video_device fresh_world = (Ok b, w') ∧
          pg_init (pg w') = true.
Proof.
  split; [exact no_video_device_expected|].
  destruct (initialize_failure_returns_false_without_rollback
              no_video_device fresh_world no_video_device_expected)
    as (b & w' & Hrun & _ & Hup & _).
  exists b, w'. split; [exact Hrun|]. apply Hup. reflexivity.
Defined.

(** C3 as stated fails. Without a video device [initialize()] returns false
    and Pygame is still initialised; when the first buffer swap fails it
    returns false with Pygame initialised, the window open and the driver
    still holding its screen and buffer. *)
Lemma failed_initialize_keeps_backend_resources :
  (∃ w1, initialize no_video_device fresh_world = (Ok false, w1) ∧
         pg_init (pg w1) = true) ∧
  (∃ w1, initialize flip_fails fresh_world = (Ok false, w1) ∧
         pg_init (pg w1) = true ∧
         pg_display (pg w1)
         = Some {| surf_size := (6, 4); surf_fills := black_cells |} ∧
         screen (self w1) = Some display_surface).
Proof.
  split; eexists; (split; [vm_compute; reflexivity|]).
  - reflexivity.
  - split; [reflexivity|]. split; reflexivity.
Qed.

Ltac bind_returns H Hstep :=
  apply bind_inv in H as [(? & ? & Hstep & H)|(? & _ & ?)]; [|discriminate].

(** The comprehension of [initialize] builds a [W] by [H] grid. *)
Lemma comprehension_is_grid W H :
  is_grid W H ((λ _, (λ _, black) <$> range W) <$> range H).
Proof.
  split.
  - unfold range. by rewrite length_fmap, length_seqZ.
  - intros row Hrow. apply list_elem_of_fmap in Hrow as (y & -> & _).
    unfold range. by rewrite length_fmap, length_seqZ.
Qed.

(** When the [try] block returns, it returns [True], having cleared the
    buffer it built and shown it. *)
Lemma initialize_try_returns faults w b w' :
  initialize_try faults w = (Ok b, w') →
  b = true ∧
  ∃ w5 w6, has_grid w5 ∧
           width (self w5) = width (self w) ∧
           height (self w5) = height (self w) ∧
           clear w5 = (Ok tt, w6) ∧ show faults w6 = (Ok tt, w').
Proof.
  unfold initialize_try. intros H.
  bind_returns H Hinit. apply same_self_pygame_init in Hinit.
  bind_returns H Hget. inversion Hget; subst; clear Hget.
  bind_returns H Hmode. apply same_self_set_mode in Hmode.
  bind_returns H Hscr. inversion Hscr; subst; clear Hscr.
  bind_returns H Hcap. apply same_self_set_caption in Hcap.
  bind_returns H Hget. inversion Hget; subst; clear Hget.
  bind_returns H Hbuf. inversion Hbuf; subst; clear Hbuf.
  bind_returns H Hclear. bind_returns H Hshow.
  inversion H; subst; clear H.
  repeat match goal with u : () |- _ => destruct u end.
  unfold same_self in *. simpl in Hcap.
  split; [done|]. eexists _, _. split_and!; [| | |exact Hclear|exact Hshow].
  - eexists. split; [reflexivity|]. apply comprehension_is_grid.
  - simpl. rewrite Hcap. simpl. by rewrite Hmode, Hinit.
  - simpl. rewrite Hcap. simpl. by rewrite Hmode, Hinit.
Qed.

Lemma black_grid_cells W H rows :
  is_grid W H rows →
  (∀ x y, 0 ≤ x < W → 0 ≤ y < H → grid_getitem rows y x = Ok black) →
  ∀ row c, row ∈ rows → c ∈ row → c = black.
Proof.
  intros [Hlen Hrows] Hblack row c Hrow Hc.
  pose proof (Hrows row Hrow) as Hw.
  apply list_elem_of_lookup in Hrow as [i Hi].
  apply list_elem_of_lookup in Hc as [j Hj].
  pose proof (lookup_lt_Some _ _ _ Hi). pose proof (lookup_lt_Some _ _ _ Hj).
  assert (grid_getitem rows (Z.of_nat i) (Z.of_nat j) = Ok c) as Hread.
  { eapply grid_getitem_lookup; [lia|lia| |]; by rewrite Nat2Z.id. }
  rewrite Hblack in Hread by lia. congruence.
Qed.

(** C9. For a driver with positive [width] and [height], whenever
    [initialize] returns true the dimensions are what they were and the
    frame buffer is a list of exactly [height] rows, each of exactly [width]
    cells, every one of them black; reading any in-range cell gives black. *)
Theorem initialize_true_gives_black_grid faults w w' :
  0 < width (self w) → 0 < height (self w) →
  initialize faults w = (Ok true, w') →
  width (self w') = width (self w) ∧ height (self w') = height (self w) ∧
  ∃ rows, buffer (self w') = Some rows ∧
          Z.of_nat (length rows) = height (self w) ∧
          (∀ row, row ∈ rows → Z.of_nat (length row) = width (self w)) ∧
          (∀ row c, row ∈ rows → c ∈ row → c = black) ∧
          (∀ x y, 0 ≤ x < width (self w) → 0 ≤ y < height (self w) →
                  buffer_getitem y x w' = (Ok black, w')).
Proof.
  intros HW HH. unfold initialize, try_except.
  destruct (initialize_try faults w) as [[b|e] w1] eqn:Htry.
  - intros [= -> ->].
    apply initialize_try_returns in Htry
      as (_ & w5 & w6 & Hg5 & HW5 & HH5 & Hclear & Hshow).
    destruct (clear_blackens_owned_buffer w5 Hg5)
      as (w6' & Hclear' & Hblack & Hg6 & Hfr).
    rewrite Hclear in Hclear'. inversion Hclear'; subst w6'; clear Hclear'.
    apply show_same_self in Hshow. unfold same_self in Hshow.
    destruct (only_buffer_changed_dims _ _ Hfr) as (HW6 & HH6 & _).
    destruct Hg6 as (rows & Hbuf & Hgrid).
    rewrite HW6, HW5, HH6, HH5 in Hgrid.
    assert (∀ x y, 0 ≤ x < width (self w) → 0 ≤ y < height (self w) →
                   grid_getitem rows y x = Ok black) as Hcells.
    { intros x y Hx Hy. specialize (Hblack x y).
      rewrite HW5, HH5 in Hblack. specialize (Hblack Hx Hy).
      unfold pixel, buffer_getitem in Hblack. by rewrite Hbuf in Hblack. }
    rewrite Hshow. split_and!; [congruence|congruence|].
    exists rows. pose proof Hgrid as [Hlen Hrows]. split_and!.
    + done.
    + lia.
    + intros row Hrow. rewrite (Hrows row Hrow). lia.
    + by eapply black_grid_cells.
    + intros x y Hx Hy. unfold buffer_getitem. rewrite Hshow, Hbuf.
      by rewrite Hcells.
  - destruct (is_Exception e); [|done].
    unfold mbind, M_bind, print, mret, M_ret. done.
Qed.

Lemma initialize_true_gives_black_grid_witness :
  0 < width (self fresh_world) ∧ 0 < height (self fresh_world) ∧
  initialize no_faults fresh_world = (Ok true, ready_world) ∧
  ∃ rows, buffer (self ready_world) = Some rows ∧
          Z.of_nat (length rows) = 2 ∧
          (∀ row, row ∈ rows → Z.of_nat (length row) = 3) ∧
          (∀ row c, row ∈ rows → c ∈ row → c = black).
Proof.
  assert (initialize no_faults fresh_world = (Ok true, ready_world)) as Hrun
    by (vm_compute; reflexivity).
  split; [reflexivity|]. split; [reflexivity|]. split; [exact Hrun|].
  destruct (initialize_true_gives_black_grid no_faults fresh_world ready_world
              eq_refl eq_refl Hrun)
    as (_ & _ & rows & Hbuf & Hlen & Hrows & Hblack & _).
  exists rows. split; [exact Hbuf|]. split; [exact Hlen|].
  split; [exact Hrows|exact Hblack].
Defined.

(** * Class-level capability queries *)

(** C7 (as amended). [InputDriver] answers, on the class itself and without
    an instance, [is_available()] (true), [get_priority()] (0),
    [get_device_class()] ("generic") and [requires_pairing()] (false). Of the
    three static queries of [DisplayDriver] it shares [is_available] and
    [get_priority] only: it defines no [get_platform_preference], neither
    itself nor through its base class. *)
Theorem InputDriver_static_queries :
  class_call InputDriver "is_available" = Ok (PyBool true) ∧
  class_call InputDriver "get_priority" = Ok (PyInt 0) ∧
  class_call InputDriver "get_device_class" = Ok (PyStr "generic") ∧
  class_call InputDriver "requires_pairing" = Ok (PyBool false) ∧
  class_lookup InputDriver "get_platform_preference" = None ∧
  class_call DisplayDriver "is_available" = Ok (PyBool true) ∧
  class_call DisplayDriver "get_priority" = Ok (PyInt 0) ∧
  class_call DisplayDriver "get_platform_preference" = Ok PyNone.
Proof. by vm_compute. Qed.

(** C7 as stated fails: asking [InputDriver] for its platform preference
    raises [AttributeError], where [DisplayDriver] answers [None]. *)
Lemma InputDriver_has_no_platform_preference :
  class_call InputDriver "get_platform_preference"
  = Raise (AttributeError "get_platform_preference") ∧
  class_call DisplayDriver "get_platform_preference" = Ok PyNone.
Proof. by vm_compute. Qed.

(** * Driver selection *)

Lemma best_None keep i cs :
  best keep i cs = None →
  ∀ k c, cs !! k = Some c → keep (i + k)%nat c = false.
Proof.
  revert i. induction cs as [|c0 cs IH]; intros i Hbest k c Hk; [done|].
  simpl in Hbest. destruct (keep i c0) eqn:Hkeep.
  - destruct (best keep (S i) cs) as [[j d]|]; [|done].
    by destruct (cand_priority c0 <? cand_priority d).
  - destruct k as [|k]; simpl in Hk.
    + simplify_eq. by rewrite Nat.add_0_r.
    + rewrite <- Nat.add_succ_comm. by apply IH.
Qed.

(** The candidate [best] returns is one the predicate keeps, no kept
    candidate has a higher priority, and none of equal priority is declared
    before it. *)
Lemma best_Some keep i cs j d :
  best keep i cs = Some (j, d) →
  ∃ k, j = (i + k)%nat ∧ cs !! k = Some d ∧ keep j d = true ∧
       ∀ k' c, cs !! k' = Some c → keep (i + k')%nat c = true →
               cand_priority c ≤ cand_priority d ∧
               (cand_priority c = cand_priority d → (k ≤ k')%nat).
Proof.
  revert i j d. induction cs as [|c0 cs IH]; intros i j d Hbest; [done|].
  simpl in Hbest. destruct (keep i c0) eqn:Hkeep.
  - destruct (best keep (S i) cs) as [[j1 d1]|] eqn:Hrest.
    + destruct (IH _ _ _ Hrest) as (k1 & -> & Hk1 & Hkeep1 & Hmax).
      destruct (Z.ltb_spec (cand_priority c0) (cand_priority d1));
        simplify_eq.
      * exists (S k1). split_and!; [lia|done|done|].
        intros [|k'] c Hc Hkc; simpl in Hc.
        -- simplify_eq. lia.
        -- rewrite <- Nat.add_succ_comm in Hkc.
           destruct (Hmax k' c Hc Hkc). lia.
      * exists 0%nat. rewrite Nat.add_0_r. split_and!; [done|done|done|].
        intros [|k'] c Hc Hkc; simpl in Hc.
        -- simplify_eq. lia.
        -- rewrite <- Nat.add_succ_comm in Hkc.
           destruct (Hmax k' c Hc Hkc). lia.
    + simplify_eq. exists 0%nat. rewrite Nat.add_0_r.
      split_and!; [done|done|done|].
      intros [|k'] c Hc Hkc; simpl in Hc.
      * simplify_eq. lia.
      * rewrite <- Nat.add_succ_comm in Hkc.
        by rewrite (best_None _ _ _ Hrest k' c Hc) in Hkc.
  - destruct (IH _ _ _ Hbest) as (k1 & -> & Hk1 & Hkeep1 & Hmax).
    exists (S k1). split_and!; [lia|done|done|].
    intros [|k'] c Hc Hkc; simpl in Hc.
    + simplify_eq. rewrite Nat.add_0_r in Hkc. congruence.
    + rewrite <- Nat.add_succ_comm in Hkc.
      destruct (Hmax k' c Hc Hkc). lia.
Qed.

Lemma matches_platform_iff P c :
  matches_platform (Some P) c = true ↔ cand_platform c = Some P.
Proof.
  unfold matches_platform. destruct (cand_platform c) as [p|]; [|done].
  rewrite bool_decide_eq_true. split; congruence.
Qed.

(** Steps 1 to 3 on what remains of a pool: if an available candidate tied
    to the target platform remains, the winner is such a candidate, with the
    highest priority among them and the earliest declaration among those of
    that priority; platform-agnostic candidates play no part. *)
Lemma winner_matching P cs (removed : gset nat) :
  (∃ k c, cs !! k = Some c ∧ (k ∉ removed) ∧
          cand_available c = true ∧ cand_platform c = Some P) →
  ∃ i w, winner (Some P) cs removed = Some (i, w) ∧
         cs !! i = Some w ∧ (i ∉ removed) ∧
         cand_available w = true ∧ cand_platform w = Some P ∧
         ∀ j c, cs !! j = Some c → j ∉ removed →
                cand_available c = true → cand_platform c = Some P →
                cand_priority c ≤ cand_priority w ∧
                (cand_priority c = cand_priority w → (i ≤ j)%nat).
Proof.
  intros (k & c & Hk & Hrem & Hav & Hplat). unfold winner.
  destruct (best _ 0 cs) as [[i w]|] eqn:Hbest.
  - apply best_Some in Hbest as (i' & -> & Hi & Hkeep & Hmax).
    simpl in Hi, Hkeep.
    apply andb_true_iff in Hkeep as [Hlive Hmatch].
    apply andb_true_iff in Hlive as [Hin Hav'].
    apply bool_decide_eq_true in Hin. apply matches_platform_iff in Hmatch.
    exists i', w. split_and!; try done.
    intros j c' Hj Hrem' Hav'' Hplat'. apply Hmax; [done|]. cbv beta.
    apply andb_true_iff. split; [|by apply matches_platform_iff].
    apply andb_true_iff. split; [by apply bool_decide_eq_true_2|done].
  - pose proof (best_None _ _ _ Hbest k c Hk) as Hnone. cbv beta in Hnone.
    apply andb_false_iff in Hnone as [Hnone|Hnone].
    + apply andb_false_iff in Hnone as [Hnone|Hnone]; [|congruence].
      by apply bool_decide_eq_false in Hnone.
    + apply matches_platform_iff in Hplat. congruence.
Qed.

(** The same for a pool from which nothing has been removed. *)
Lemma platform_match_winner P cs :
  (∃ k c, cs !! k = Some c ∧
          cand_available c = true ∧ cand_platform c = Some P) →
  ∃ i w, top_choice (Some P) cs = Some (i, w) ∧
         cs !! i = Some w ∧
         cand_available w = true ∧ cand_platform w = Some P ∧
         ∀ j c, cs !! j = Some c →
                cand_available c = true → cand_platform c = Some P →
                cand_priority c ≤ cand_priority w ∧
                (cand_priority c = cand_priority w → (i ≤ j)%nat).
Proof.
  intros (k & c & Hk & Hav & Hplat).
  destruct (winner_matching P cs ∅) as (i & w & Hwin & Hi & _ & ? & ? & Hmax).
  { exists k, c. split_and!; [done|set_solver|done|done]. }
  exists i, w. split_and!; try done.
  intros j c' Hj. apply Hmax; [done|set_solver].
Qed.



(** On that pool the choice is the window driver declared first, although
    the generic driver has the higher priority. *)
Example top_choice_sample :
  top_choice (Some "macos") [generic_high; window_first; window_second]
  = Some (1%nat, window_first).
Proof. by vm_compute. Qed.

Lemma removed_size (cs : list candidate) (removed : gset nat) :
  (∀ i, i ∈ removed → (i < length cs)%nat) → (size removed ≤ length cs)%nat.
Proof.
  intros Hrem.
  rewrite <- (size_set_seq (C := gset nat) 0 (length cs)).
  apply subseteq_size. intros i Hi. apply elem_of_set_seq.
  split; [lia|]. simpl. by apply Hrem.
Qed.

(** Step 4 with enough rounds left: if an available candidate for the target
    platform remains that initialises, the selector returns one, and it is a
    candidate for that platform. *)
Lemma select_from_matching P cs rounds (removed : gset nat) :
  (∀ i, i ∈ removed → (i < length cs)%nat) →
  (length cs < rounds + size removed)%nat →
  (∃ k c, cs !! k = Some c ∧ (k ∉ removed) ∧ cand_available c = true ∧
          cand_platform c = Some P ∧ cand_initialize c = true) →
  ∃ i w, select_from rounds (Some P) cs removed = Some (i, w) ∧
         cs !! i = Some w ∧ cand_available w = true ∧
         cand_platform w = Some P ∧ cand_initialize w = true.
Proof.
  revert removed. induction rounds as [|rounds IH];
    intros removed Hrem Hfuel (k & c & Hk & Hkrem & Hav & Hplat & Hinit).
  - pose proof (removed_size cs removed Hrem). lia.
  - simpl.
    destruct (winner_matching P cs removed)
      as (i & w & -> & Hi & Hirem & Hav' & Hplat' & _); [by eauto 10|].
    destruct (cand_initialize w) eqn:Hinit'; [by eauto 10|].
    apply IH.
    + intros j [Hj|Hj]%elem_of_union; [|by apply Hrem].
      apply elem_of_singleton in Hj as ->. by eapply lookup_lt_Some.
    + rewrite size_union by set_solver. rewrite size_singleton. lia.
    + exists k, c. split_and!; try done.
      intros [Hj|Hj]%elem_of_union; [|done].
      apply elem_of_singleton in Hj as ->. congruence.
Qed.

(** The whole selector, retries included: when some available candidate for
    the target platform initialises, the driver returned is for that platform
    and has initialised. When every one of them fails to initialise the
    selector falls through to the platform-agnostic candidates instead. *)
Lemma select_matching P cs :
  (∃ k c, cs !! k = Some c ∧ cand_available c = true ∧
          cand_platform c = Some P ∧ cand_initialize c = true) →
  ∃ i w, select (Some P) cs = Some (i, w) ∧ cs !! i = Some w ∧
         cand_available w = true ∧ cand_platform w = Some P ∧
         cand_initialize w = true.
Proof.
  intros (k & c & Hk & Hav & Hplat & Hinit). unfold select.
  apply select_from_matching.
  - set_solver.
  - rewrite size_empty. lia.
  - exists k, c. by split_and!.
Qed.

Example select_falls_through_sample :
  select (Some "macos")
    [mkCandidate "Window" (Some "macos") 50 true false; terminal_fallback]
  = Some (1%nat, terminal_fallback).
Proof. by vm_compute. Qed.

Lemma live_in_fresh_pool (i : nat) `{!Decision (i ∉ (∅ : gset nat))} :
  bool_decide (i ∉ (∅ : gset nat)) = true.
Proof. apply bool_decide_eq_true_2. set_solver. Qed.

Lemma matches_other_platform t c p :
  t ≠ Some p → cand_platform c = Some p → matches_platform t c = false.
Proof.
  intros Ht Hc. unfold matches_platform. rewrite Hc.
  destruct t as [t|]; [|done]. apply bool_decide_eq_false. congruence.
Qed.

Lemma matches_agnostic t c :
  cand_platform c = None → matches_platform t c = false.
Proof. intros Hc. unfold matches_platform. rewrite Hc. by destruct t. Qed.

(** Whatever the target, a candidate tied to another platform is never the
    choice. *)
Lemma top_choice_never_other_platform t cs i w p :
  t ≠ Some p → top_choice t cs = Some (i, w) → cand_platform w ≠ Some p.
Proof.
  intros Ht. unfold top_choice, winner.
  destruct (best _ 0 cs) as [[i' w']|] eqn:Hmatch.
  - intros [= -> ->]. apply best_Some in Hmatch as (_ & _ & _ & Hkeep & _).
    apply andb_true_iff in Hkeep as [_ Hkeep]. intros Hp.
    by rewrite (matches_other_platform t w p) in Hkeep.
  - intros Hagn. apply best_Some in Hagn as (_ & _ & _ & Hkeep & _).
    apply andb_true_iff in Hkeep as [_ Hkeep]. unfold platform_agnostic in Hkeep.
    intros Hp. by rewrite Hp in Hkeep.
Qed.

(** C8. The window driver's class answers [get_priority()] with 50 and
    [get_platform_preference()] with "macos", whether or not Pygame can be
    imported. With Pygame importable its descriptor is available, and under
    the selector's ranking: for target "macos" it is chosen over a
    platform-agnostic fallback (of priority 0 or any other), in either
    declaration order, and more generally the choice from any pool that
    holds it is a "macos" driver; for every other target, or none, an
    available platform-agnostic candidate is chosen over it, in either
    order, and it is never the choice from any pool. *)
Theorem window_driver_chosen_on_macos_only :
  (∀ imp,
     class_call (MacOSWindowDriver_class imp) "get_priority" = Ok (PyInt 50) ∧
     class_call (MacOSWindowDriver_class imp) "get_platform_preference"
     = Ok (PyStr "macos")) ∧
  ∀ init_ok, ∃ W,
    describe (MacOSWindowDriver_class (Ok tt)) init_ok = Ok W ∧
    cand_priority W = 50 ∧ cand_platform W = Some "macos" ∧
    cand_available W = true ∧
    (∀ fb, cand_platform fb = None →
       top_choice (Some "macos") [W; fb] = Some (0%nat, W) ∧
       top_choice (Some "macos") [fb; W] = Some (1%nat, W)) ∧
    (∀ cs k, cs !! k = Some W →
       ∃ i w, top_choice (Some "macos") cs = Some (i, w) ∧
              cand_platform w = Some "macos") ∧
    (∀ t g, t ≠ Some "macos" →
       cand_platform g = None → cand_available g = true →
       top_choice t [W; g] = Some (1%nat, g) ∧
       top_choice t [g; W] = Some (0%nat, g)) ∧
    (∀ t cs i w, t ≠ Some "macos" → top_choice t cs = Some (i, w) → w ≠ W).
Proof.
  split; [intros imp; split; by vm_compute|].
  intros init_ok. eexists. split; [vm_compute; reflexivity|].
  split; [done|]. split; [done|]. split; [done|]. split_and!.
  - intros fb Hfb. unfold top_choice, winner, best. cbv beta.
    rewrite !live_in_fresh_pool, (matches_agnostic _ fb Hfb). simpl.
    by rewrite !andb_false_r.
  - intros cs k Hk.
    destruct (platform_match_winner "macos" cs) as (i & w & ? & _ & _ & ? & _);
      [by eauto 10|by eauto].
  - intros t g Ht Hg Hav. unfold top_choice, winner, best. cbv beta.
    rewrite !live_in_fresh_pool, (matches_agnostic _ g Hg), Hav.
    rewrite (matches_other_platform t _ "macos") by done.
    unfold platform_agnostic. rewrite Hg. simpl. done.
  - intros t cs i w Ht Hchoice ->.
    by eapply (top_choice_never_other_platform t cs i _ "macos").
Qed.

Lemma window_driver_chosen_on_macos_only_witness :
  ∃ W, describe (MacOSWindowDriver_class (Ok tt)) true = Ok W ∧
       top_choice (Some "macos") [W; terminal_fallback] = Some (0%nat, W) ∧
       top_choice (Some "macos") [generic_high; W] = Some (1%nat, W) ∧
       top_choice (Some "linux") [W; terminal_fallback]
       = Some (1%nat, terminal_fallback) ∧
       top_choice None [W; terminal_fallback]
       = Some (1%nat, terminal_fallback).
Proof.
  destruct (proj2 window_driver_chosen_on_macos_only true)
    as (W & Hdesc & _ & _ & _ & Hmac & _ & Hother & _).
  exists W. split; [exact Hdesc|].
  split; [exact (proj1 (Hmac terminal_fallback eq_refl))|].
  split; [exact (proj2 (Hmac generic_high eq_refl))|].
  split.
  - refine (proj1 (Hother (Some "linux") terminal_fallback _ eq_refl eq_refl)).
    discriminate.
  - refine (proj1 (Hother None terminal_fallback _ eq_refl eq_refl)).
    discriminate.
Defined.

(** * [initialize] on a backend that never fails *)

Global Instance any_change_preorder : PreOrder any_change.
Proof. by split. Qed.

Lemma guarded_no_fault {A} faults c (run : pygame → M A) w :
  faults c (pg w) = None → guarded faults c run w = run (pg w) w.
Proof. intros Hnone. unfold guarded, mbind, M_bind, get_pg. by rewrite Hnone. Qed.

Lemma for_each_skip {A} (xs : list A) (body : A → M unit) w :
  (∀ x w, body x w = (Ok tt, w)) → for_each xs body w = (Ok tt, w).
Proof.
  intros Hbody. induction xs as [|x xs IH]; simpl; [done|].
  by rewrite (bind_ok _ _ _ _ _ (Hbody x w)).
Qed.

Lemma grid_getitem_in_range W H rows x y :
  is_grid W H rows → 0 ≤ x < W → 0 ≤ y < H →
  ∃ c, grid_getitem rows y x = Ok c.
Proof.
  intros Hg Hx Hy.
  destruct (is_grid_row _ _ _ _ Hg Hy) as (row & Hrow & Hlen).
  destruct (lookup_lt_is_Some_2 row (Z.to_nat x)) as [c Hc]; [lia|].
  exists c. eapply grid_getitem_lookup; [lia|lia|done|done].
Qed.

Lemma py_getitem_elem {A} (l : list A) i a : py_getitem l i = Ok a → a ∈ l.
Proof.
  unfold py_getitem. destruct (py_index l i) as [k|]; [|done].
  destruct (l !! k) as [b|] eqn:Hk; [|done].
  intros [= <-]. by eapply list_elem_of_lookup_2.
Qed.

Lemma grid_getitem_elem rows y x c :
  grid_getitem rows y x = Ok c → ∃ row, row ∈ rows ∧ c ∈ row.
Proof.
  unfold grid_getitem. destruct (py_getitem rows y) as [row|] eqn:Hrow; [|done].
  intros Hc. exists row. split; by eapply py_getitem_elem.
Qed.

Section Faultless.
Variable faults : pg_call → pygame → option exn.
Hypothesis never : faultless faults.
Variables W H : Z.

(** One iteration of the inner loop of [show]: read the cell, draw its
    rectangle. *)
Lemma show_cell w y x :
  drawable W H w → 0 ≤ x < W → 0 ≤ y < H →
  ∃ w',
    (c ← buffer_getitem y x;
     d ← get_self;
     match screen d with
     | Some s =>
         draw_rect faults s c
           (mkRect (x * scale d) (y * scale d) (scale d) (scale d))
     | None =>
         raise (TypeError "argument 1 must be pygame.surface.Surface, not None")
     end) w = (Ok tt, w') ∧ drawable W H w'.
Proof.
  intros ((Hg & HW & HH) & Hscreen & [d Hd] & Hvalid) Hx Hy.
  pose proof Hg as (rows & Hbuf & Hgrid).
  destruct (grid_getitem_in_range _ _ rows x y Hgrid) as [c Hc]; [lia|lia|].
  destruct (grid_getitem_elem _ _ _ _ Hc) as (row & Hrow & Hin).
  pose proof (Hvalid rows Hbuf row c Hrow Hin) as Hcolor.
  eexists. split.
  - unfold mbind, M_bind, buffer_getitem, get_self. rewrite Hbuf, Hc, Hscreen.
    unfold draw_rect. rewrite guarded_no_fault by apply never.
    rewrite Hd, Hcolor. reflexivity.
  - split_and!; simpl; first [done | by eexists].
Qed.

Lemma show_rows w :
  drawable W H w →
  ∃ w',
    for_each (range H) (λ y,
      d ← get_self;
      for_each (range (width d)) (λ x,
        c ← buffer_getitem y x;
        d ← get_self;
        match screen d with
        | Some s =>
            draw_rect faults s c
              (mkRect (x * scale d) (y * scale d) (scale d) (scale d))
        | None =>
            raise (TypeError "argument 1 must be pygame.surface.Surface, not None")
        end)) w = (Ok tt, w') ∧ drawable W H w'.
Proof.
  intros Hdraw.
  match goal with
  | |- ∃ w', for_each ?xs ?body w = _ ∧ _ =>
      destruct (for_each_rule (drawable W H) any_change (λ (_ : Z) _, True)
                  xs body) with (w := w) as (w' & Hrun & Hdraw' & _)
  end; [done| |done|by eauto].
  intros y w1 Hy Hdraw1. apply elem_of_seqZ in Hy.
  unfold mbind at 1, M_bind at 1, get_self at 1.
  pose proof Hdraw1 as ((_ & -> & _) & _).
  match goal with
  | |- ∃ w', for_each ?xs ?body w1 = _ ∧ _ =>
      destruct (for_each_rule (drawable W H) any_change (λ (_ : Z) _, True)
                  xs body) with (w := w1) as (w2 & Hrun & Hdraw2 & _)
  end; [done| |done|].
  - intros x w2 Hx Hdraw2. apply elem_of_seqZ in Hx.
    destruct (show_cell w2 y x Hdraw2) as (w3 & ? & ?); [lia|lia|].
    exists w3. split; [done|]. split; [done|]. split; exact I.
  - exists w2. split; [done|]. split; [done|]. split; exact I.
Qed.

(** On a ready driver [show] returns. *)
Lemma show_returns w :
  drawable W H w → pg_init (pg w) = true → ∃ w', show faults w = (Ok tt, w').
Proof.
  intros Hdraw Hinit.
  pose proof Hdraw as ((Hg & HW & HH) & Hscreen & [d Hd] & Hvalid).
  unfold show. unfold mbind at 1, M_bind at 1, get_self at 1. rewrite Hscreen.
  erewrite bind_ok; cycle 1.
  { unfold event_get. rewrite guarded_no_fault by apply never.
    rewrite Hinit. reflexivity. }
  erewrite bind_ok; cycle 1.
  { apply for_each_skip. intros ev w1. by destruct (bool_decide _). }
  unfold mbind at 1, M_bind at 1, get_self at 1. simpl. rewrite HH.
  edestruct show_rows as (w1 & Hrows & (_ & _ & [d1 Hd1] & _)); cycle 1.
  - erewrite bind_ok by exact Hrows.
    unfold display_flip. rewrite guarded_no_fault by apply never.
    rewrite Hd1. by eexists.
  - split_and!; simpl; first [done | by eexists].
Qed.

End Faultless.

Lemma pixel_buffer_early w rows x y :
  buffer (self w) = Some rows → pixel w x y = grid_getitem rows y x.
Proof. intros Hbuf. unfold pixel, buffer_getitem. by rewrite Hbuf. Qed.

Lemma valid_color_black : valid_color black = true.
Proof. reflexivity. Qed.

(** On a backend that never fails [initialize] returns true, provided the
    window size is one [set_mode] accepts, whatever state Pygame was in. *)
Lemma initialize_returns_true faults w :
  faultless faults →
  size_refused (window_width (self w), window_height (self w)) = false →
  ∃ w', initialize faults w = (Ok true, w').
Proof.
  intros Hnever Hsize. unfold initialize, try_except.
  cut (∃ w', initialize_try faults w = (Ok true, w')).
  { intros (w' & ->). by eexists. }
  unfold initialize_try.
  erewrite bind_ok; cycle 1.
  { unfold pygame_init. rewrite guarded_no_fault by apply Hnever. reflexivity. }
  unfold mbind at 1, M_bind at 1, get_self at 1.
  erewrite bind_ok; cycle 1.
  { unfold display_set_mode. rewrite guarded_no_fault by apply Hnever.
    simpl. rewrite Hsize. reflexivity. }
  erewrite bind_ok by reflexivity.
  erewrite bind_ok; cycle 1.
  { unfold display_set_caption. rewrite guarded_no_fault by apply Hnever.
    reflexivity. }
  unfold mbind at 1, M_bind at 1, get_self at 1.
  erewrite bind_ok by reflexivity.
  match goal with
  | |- ∃ w', (clear ≫= _) ?w5 = _ =>
      assert (has_grid w5) as Hg5
        by (eexists; split; [reflexivity|apply comprehension_is_grid]);
      destruct (clear_blackens_owned_buffer w5 Hg5)
        as (w6 & Hclear & Hblack & Hg6 & (Hpg & _ & b & Hself))
  end.
  erewrite bind_ok by exact Hclear.
  destruct (show_returns faults Hnever (width (self w6)) (height (self w6)) w6)
    as (w7 & Hshow).
  - split_and!; try done.
    + by rewrite Hself.
    + rewrite Hpg. simpl. by eexists.
    + intros rows Hbuf row c Hrow Hc.
      destruct Hg6 as (rows6 & Hbuf6 & Hgrid6).
      assert (rows6 = rows) as -> by congruence.
      rewrite (black_grid_cells _ _ rows Hgrid6) with (row := row) (c := c);
        [apply valid_color_black| |done|done].
      intros x y Hx Hy. rewrite <- (pixel_buffer_early w6 rows) by done.
      apply Hblack; simpl in *; rewrite Hself in Hx, Hy; simpl in *; lia.
  - by rewrite Hpg.
  - erewrite bind_ok by exact Hshow. by eexists.
Qed.

(** * Further properties of the driver *)

(** ** What the drawing calls leave alone *)

Lemma buffer_setitem_only_buffer y x c :
  respects only_buffer_changed (buffer_setitem y x c).
Proof.
  intros w r w' H. unfold buffer_setitem in H.
  repeat case_match; simplify_eq; try reflexivity.
  split_and!; [done|done|by eexists].
Qed.

Lemma set_pixel_only_buffer x y c :
  respects only_buffer_changed (set_pixel x y c).
Proof.
  unfold set_pixel. respects_tac. apply buffer_setitem_only_buffer.
Qed.

Lemma clear_only_buffer : respects only_buffer_changed clear.
Proof.
  apply respects_clear; order_goal. apply buffer_setitem_only_buffer.
Qed.

Lemma only_buffer_changed_self w w' :
  only_buffer_changed w w' → self w' = set_buffer (buffer (self w')) (self w).
Proof. intros (_ & _ & b & ->). done. Qed.

(** X1. [set_pixel] and [clear] never call the backend and never print:
    in every state and however they end, by returning or by raising,
    Pygame's state and standard output are what they were, and of the
    driver's attributes only [buffer] can differ. *)
Theorem set_pixel_and_clear_leave_backend_alone w r w' :
  (∃ x y c, set_pixel x y c w = (r, w')) ∨ clear w = (r, w') →
  pg w' = pg w ∧ stdout w' = stdout w ∧
  self w' = set_buffer (buffer (self w')) (self w).
Proof.
  intros Hrun.
  assert (only_buffer_changed w w') as Hfr.
  { destruct Hrun as [(x & y & c & Hrun)|Hrun].
    - by eapply set_pixel_only_buffer.
    - by eapply clear_only_buffer. }
  pose proof (only_buffer_changed_self _ _ Hfr).
  destruct Hfr as (? & ? & _). done.
Qed.

Lemma set_pixel_and_clear_leave_backend_alone_witness :
  pg painted_world = pg ready_world ∧
  stdout painted_world = stdout ready_world ∧
  self painted_world = set_buffer (buffer (self painted_world)) (self ready_world).
Proof.
  apply (set_pixel_and_clear_leave_backend_alone ready_world (Ok tt)
           painted_world).
  left. exists 1, 1, red. vm_compute. reflexivity.
Defined.

(** X2. On a driver whose buffer does not exist yet (from construction until
    [initialize()] builds it) [set_pixel] on an in-range coordinate raises
    [TypeError], the subscript of [None], and changes nothing. *)
Theorem set_pixel_before_initialize_raises w x y c :
  buffer (self w) = None →
  0 ≤ x < width (self w) → 0 ≤ y < height (self w) →
  set_pixel x y c w
  = (Raise (TypeError "'NoneType' object is not subscriptable"), w).
Proof.
  intros Hbuf Hx Hy. rewrite set_pixel_unfold.
  rewrite (proj2 (in_range_test x y _ _) (conj Hx Hy)).
  unfold buffer_setitem. by rewrite Hbuf.
Qed.

Lemma set_pixel_before_initialize_raises_witness :
  buffer (self fresh_world) = None ∧
  set_pixel 2 1 red fresh_world
  = (Raise (TypeError "'NoneType' object is not subscriptable"), fresh_world).
Proof.
  split; [reflexivity|].
  apply (set_pixel_before_initialize_raises fresh_world 2 1 red);
    [reflexivity|cbn; lia|cbn; lia].
Defined.

Lemma for_each_skip_at {A} (xs : list A) (body : A → M unit) w :
  (∀ x, x ∈ xs → body x w = (Ok tt, w)) → for_each xs body w = (Ok tt, w).
Proof.
  induction xs as [|x xs IH]; intros Hbody; simpl; [done|].
  rewrite (bind_ok _ _ _ _ _ (Hbody x (list_elem_of_here _ _))).
  apply IH. intros y Hy. apply Hbody. by right.
Qed.

(** X3. [clear] on a driver whose buffer does not exist yet: with positive
    [width] and [height] it raises [TypeError] at the first cell and changes
    nothing; when either dimension is zero or negative no cell is visited
    and it returns, changing nothing. *)
Theorem clear_before_initialize w :
  buffer (self w) = None →
  (0 < width (self w) ∧ 0 < height (self w) →
   clear w = (Raise (TypeError "'NoneType' object is not subscriptable"), w)) ∧
  (width (self w) ≤ 0 ∨ height (self w) ≤ 0 → clear w = (Ok tt, w)).
Proof.
  intros Hbuf. unfold clear. unfold mbind at 1, M_bind at 1, get_self at 1.
  split.
  - intros [HW HH]. unfold range.
    rewrite (seqZ_cons 0 (height (self w))) by done. simpl.
    apply bind_raise. unfold mbind at 1, M_bind at 1, get_self at 1.
    rewrite (seqZ_cons 0 (width (self w))) by done. simpl.
    apply bind_raise. unfold buffer_setitem. by rewrite Hbuf.
  - intros Hdim. apply for_each_skip_at. intros y Hy.
    unfold mbind, M_bind, get_self. unfold range in *.
    destruct (decide (width (self w) ≤ 0)) as [HW|HW].
    + by rewrite seqZ_nil.
    + destruct Hdim as [?|HH]; [done|].
      rewrite seqZ_nil in Hy by done. by apply elem_of_nil in Hy.
Qed.

Lemma clear_before_initialize_witness :
  buffer (self fresh_world) = None ∧
  clear fresh_world
  = (Raise (TypeError "'NoneType' object is not subscriptable"), fresh_world) ∧
  clear (world_of (MacOSWindowDriver_new 0 5 2) pygame_fresh)
  = (Ok tt, world_of (MacOSWindowDriver_new 0 5 2) pygame_fresh).
Proof.
  split; [reflexivity|]. split.
  - apply (proj1 (clear_before_initialize fresh_world eq_refl)). cbn. lia.
  - apply (proj2 (clear_before_initialize
                    (world_of (MacOSWindowDriver_new 0 5 2) pygame_fresh)
                    eq_refl)).
    cbn. lia.
Defined.

(** ** Buffers are determined by their cells *)

Lemma grid_ext W H rows1 rows2 :
  is_grid W H rows1 → is_grid W H rows2 →
  (∀ x y, 0 ≤ x < W → 0 ≤ y < H →
          grid_getitem rows1 y x = grid_getitem rows2 y x) →
  rows1 = rows2.
Proof.
  intros [Hlen1 Hrows1] [Hlen2 Hrows2] Hcells.
  apply (list_eq_same_length _ _ (Z.to_nat H)); [done|done|].
  intros i row1 row2 Hi Hrow1 Hrow2.
  pose proof (Hrows1 row1 (list_elem_of_lookup_2 _ _ _ Hrow1)) as Hw1.
  pose proof (Hrows2 row2 (list_elem_of_lookup_2 _ _ _ Hrow2)) as Hw2.
  apply (list_eq_same_length _ _ (Z.to_nat W)); [done|done|].
  intros j c1 c2 Hj Hc1 Hc2.
  specialize (Hcells (Z.of_nat j) (Z.of_nat i)).
  rewrite (grid_getitem_lookup rows1 _ _ row1 c1) in Hcells
    by (rewrite ?Nat2Z.id; done || lia).
  rewrite (grid_getitem_lookup rows2 _ _ row2 c2) in Hcells
    by (rewrite ?Nat2Z.id; done || lia).
  assert (Ok c1 = Ok c2) as [= ->] by (apply Hcells; lia). done.
Qed.

Lemma pixel_buffer w rows x y :
  buffer (self w) = Some rows → pixel w x y = grid_getitem rows y x.
Proof. intros Hbuf. unfold pixel, buffer_getitem. by rewrite Hbuf. Qed.

(** Two worlds reached from the same one by changing only the buffer, both
    owning a grid, are the same world as soon as their cells agree. *)
Lemma world_eq_by_pixels w w1 w2 :
  only_buffer_changed w w1 → only_buffer_changed w w2 →
  has_grid w1 → has_grid w2 →
  (∀ x y, 0 ≤ x < width (self w) → 0 ≤ y < height (self w) →
          pixel w1 x y = pixel w2 x y) →
  w1 = w2.
Proof.
  intros Hfr1 Hfr2 (rows1 & Hbuf1 & Hg1) (rows2 & Hbuf2 & Hg2) Hcells.
  destruct (only_buffer_changed_dims _ _ Hfr1) as (HW1 & HH1 & _).
  destruct (only_buffer_changed_dims _ _ Hfr2) as (HW2 & HH2 & _).
  rewrite HW1, HH1 in Hg1. rewrite HW2, HH2 in Hg2.
  assert (rows1 = rows2) as ->.
  { eapply grid_ext; [done|done|]. intros x y Hx Hy.
    rewrite <- (pixel_buffer w1 rows1), <- (pixel_buffer w2 rows2) by done.
    by apply Hcells. }
  destruct Hfr1 as (Hp1 & Ho1 & b1 & Hs1), Hfr2 as (Hp2 & Ho2 & b2 & Hs2).
  destruct w1 as [s1 p1 o1], w2 as [s2 p2 o2]. simpl in *. subst.
  destruct (self w); simpl in *. congruence.
Qed.

Lemma set_pixel_in_range w x y c :
  has_grid w → 0 ≤ x < width (self w) → 0 ≤ y < height (self w) →
  ∃ w', set_pixel x y c w = (Ok tt, w') ∧
        has_grid w' ∧ only_buffer_changed w w' ∧
        pixel w' x y = Ok c ∧
        ∀ x' y', 0 ≤ x' < width (self w) → 0 ≤ y' < height (self w) →
                 (x', y') ≠ (x, y) → pixel w' x' y' = pixel w x' y'.
Proof.
  intros Hg Hx Hy. rewrite set_pixel_unfold.
  rewrite (proj2 (in_range_test x y _ _) (conj Hx Hy)).
  by apply buffer_setitem_spec.
Qed.

(** ** Writes compose *)

(** X4. On a driver that owns its buffer, writing an in-range cell twice is
    the same as writing it once with the second colour: the last write
    wins, and no trace of the first is left anywhere in the world. *)
Theorem set_pixel_last_write_wins w x y c1 c2 :
  has_grid w → 0 ≤ x < width (self w) → 0 ≤ y < height (self w) →
  (set_pixel x y c1 ;; set_pixel x y c2) w = set_pixel x y c2 w.
Proof.
  intros Hg Hx Hy.
  destruct (set_pixel_in_range w x y c1 Hg Hx Hy)
    as (w1 & Hset1 & Hg1 & Hfr1 & _ & Hoth1).
  destruct (only_buffer_changed_dims _ _ Hfr1) as (HW1 & HH1 & _).
  destruct (set_pixel_in_range w1 x y c2 Hg1)
    as (w12 & Hset12 & Hg12 & Hfr12 & Hread12 & Hoth12); [lia|lia|].
  destruct (set_pixel_in_range w x y c2 Hg Hx Hy)
    as (w2 & Hset2 & Hg2 & Hfr2 & Hread2 & Hoth2).
  rewrite (bind_ok _ _ _ _ _ Hset1), Hset12, Hset2. f_equal.
  apply (world_eq_by_pixels w); [by trans w1|done|done|done|].
  intros x' y' Hx' Hy'.
  destruct (decide ((x', y') = (x, y))) as [[= -> ->]|Hne]; [congruence|].
  rewrite Hoth12, Hoth1, Hoth2 by (done || lia). done.
Qed.

Lemma set_pixel_last_write_wins_witness :
  has_grid ready_world ∧
  (set_pixel 1 1 (0, 255, 0) ;; set_pixel 1 1 red) ready_world
  = (Ok tt, painted_world).
Proof.
  split; [exact ready_world_has_grid|].
  rewrite (set_pixel_last_write_wins ready_world 1 1 (0, 255, 0) red
             ready_world_has_grid); [|cbn; lia|cbn; lia].
  vm_compute. reflexivity.
Defined.

(** X5. On a driver that owns its buffer, writes to two different in-range
    cells commute: either order leads to the same world. *)
Theorem set_pixel_distinct_cells_commute w x1 y1 c1 x2 y2 c2 :
  has_grid w →
  0 ≤ x1 < width (self w) → 0 ≤ y1 < height (self w) →
  0 ≤ x2 < width (self w) → 0 ≤ y2 < height (self w) →
  (x1, y1) ≠ (x2, y2) →
  (set_pixel x1 y1 c1 ;; set_pixel x2 y2 c2) w
  = (set_pixel x2 y2 c2 ;; set_pixel x1 y1 c1) w.
Proof.
  intros Hg Hx1 Hy1 Hx2 Hy2 Hne.
  destruct (set_pixel_in_range w x1 y1 c1 Hg Hx1 Hy1)
    as (wa & Hseta & Hga & Hfra & Hreada & Hotha).
  destruct (only_buffer_changed_dims _ _ Hfra) as (HWa & HHa & _).
  destruct (set_pixel_in_range wa x2 y2 c2 Hga)
    as (wab & Hsetab & Hgab & Hfrab & Hreadab & Hothab); [lia|lia|].
  destruct (set_pixel_in_range w x2 y2 c2 Hg Hx2 Hy2)
    as (wb & Hsetb & Hgb & Hfrb & Hreadb & Hothb).
  destruct (only_buffer_changed_dims _ _ Hfrb) as (HWb & HHb & _).
  destruct (set_pixel_in_range wb x1 y1 c1 Hgb)
    as (wba & Hsetba & Hgba & Hfrba & Hreadba & Hothba); [lia|lia|].
  rewrite (bind_ok _ _ _ _ _ Hseta), (bind_ok _ _ _ _ _ Hsetb).
  rewrite Hsetab, Hsetba. f_equal.
  apply (world_eq_by_pixels w); [by trans wa|by trans wb|done|done|].
  intros x y Hx Hy.
  destruct (decide ((x, y) = (x1, y1))) as [[= -> ->]|Hne1].
  - rewrite Hothab, Hreada, Hreadba by (done || lia). done.
  - destruct (decide ((x, y) = (x2, y2))) as [[= -> ->]|Hne2].
    + rewrite Hreadab, Hothba, Hreadb by (done || lia). done.
    + rewrite Hothab, Hotha, Hothba, Hothb by (done || lia). done.
Qed.

Lemma set_pixel_distinct_cells_commute_witness :
  has_grid ready_world ∧ (0, 0) ≠ (2, 1) ∧
  (set_pixel 0 0 red ;; set_pixel 2 1 (0, 0, 255)) ready_world
  = (set_pixel 2 1 (0, 0, 255) ;; set_pixel 0 0 red) ready_world.
Proof.
  split; [exact ready_world_has_grid|].
  assert ((0, 0) ≠ (2, 1)) as Hne by discriminate.
  split; [exact Hne|].
  apply (set_pixel_distinct_cells_commute ready_world 0 0 red 2 1 (0, 0, 255)
           ready_world_has_grid); [cbn; lia|cbn; lia|cbn; lia|cbn; lia|exact Hne].
Defined.

(** ** [clear] gives the buffer [initialize] builds *)

Lemma black_grid_is_grid W H : is_grid W H (black_grid W H).
Proof.
  unfold black_grid. split; [by rewrite length_replicate|].
  intros row Hrow. apply elem_of_replicate in Hrow as [Hrow _].
  rewrite Hrow. by rewrite length_replicate.
Qed.

Lemma black_grid_cell W H x y :
  0 ≤ x < W → 0 ≤ y < H → grid_getitem (black_grid W H) y x = Ok black.
Proof.
  intros Hx Hy. unfold black_grid.
  eapply grid_getitem_lookup; [lia|lia| |]; apply lookup_replicate_2; lia.
Qed.

Lemma comprehension_black_grid W H :
  (λ _ : Z, (λ _ : Z, black) <$> range W) <$> range H = black_grid W H.
Proof.
  unfold black_grid, range.
  rewrite (const_fmap _ (seqZ 0 H) (replicate (Z.to_nat W) black)).
  - by rewrite length_seqZ.
  - intros y. cbv beta. rewrite (const_fmap _ (seqZ 0 W) black) by done.
    by rewrite length_seqZ.
Qed.

Lemma clear_exact w :
  has_grid w →
  clear w
  = (Ok tt,
     {| self := set_buffer
                  (Some (black_grid (width (self w)) (height (self w))))
                  (self w);
        pg := pg w; stdout := stdout w |}).
Proof.
  intros Hg.
  destruct (clear_blackens_owned_buffer w Hg)
    as (w' & -> & Hblack & Hg' & Hfr).
  f_equal. apply (world_eq_by_pixels w); [done| |done| |].
  - split_and!; [done|done|by eexists].
  - eexists. split; [reflexivity|]. apply black_grid_is_grid.
  - intros x y Hx Hy. rewrite Hblack by done.
    unfold pixel, buffer_getitem. simpl. by rewrite black_grid_cell.
Qed.

(** X6. On a driver that owns its buffer [clear] returns with the buffer
    equal to [height] rows of [width] black cells, whatever it held before,
    and with nothing else changed: this is the very buffer the comprehension
    of [initialize] builds, and clearing twice is the same as clearing
    once. *)
Theorem clear_restores_the_initial_buffer w :
  has_grid w →
  clear w
  = (Ok tt,
     {| self := set_buffer
                  (Some ((λ _, (λ _, black) <$> range (width (self w)))
                         <$> range (height (self w))))
                  (self w);
        pg := pg w; stdout := stdout w |}) ∧
  (clear ;; clear) w = clear w.
Proof.
  intros Hg. rewrite comprehension_black_grid. split; [by apply clear_exact|].
  rewrite (bind_ok _ _ _ _ _ (clear_exact w Hg)).
  rewrite clear_exact.
  - by rewrite (clear_exact w Hg).
  - eexists. split; [reflexivity|]. apply black_grid_is_grid.
Qed.

Lemma clear_restores_the_initial_buffer_witness :
  has_grid painted_world ∧
  clear painted_world = (Ok tt, ready_world) ∧
  (clear ;; clear) painted_world = clear painted_world.
Proof.
  split; [exact painted_world_has_grid|].
  destruct (clear_restores_the_initial_buffer painted_world
              painted_world_has_grid) as [Hclear Htwice].
  split; [|exact Htwice]. rewrite Hclear. vm_compute. reflexivity.
Defined.

(** ** [show] reads the driver and writes the window *)

Global Instance same_stdout_preorder : PreOrder same_stdout.
Proof. split; [done|]. intros w1 w2 w3. unfold same_stdout. congruence. Qed.

Ltac quiet_call :=
  intros; apply respects_guarded; [apply _|];
  let H := fresh in
  intros ? ? ? H;
  unfold mbind, M_bind, mret, M_ret, put_pg, raise in H; simpl in H;
  repeat case_match; simplify_eq; reflexivity.

Lemma show_same_stdout faults : respects same_stdout (show faults).
Proof.
  apply respects_show; order_goal.
  - unfold event_get. quiet_call.
  - unfold draw_rect. quiet_call.
  - unfold display_flip. quiet_call.
Qed.

(** X7. [show] only reads the driver and never prints: in every state, with
    every backend, and whether it returns or raises, the driver afterwards
    (frame buffer, dimensions, scale, screen) is the driver before, and so
    is standard output. *)
Theorem show_never_modifies_the_driver faults w r w' :
  show faults w = (r, w') → self w' = self w ∧ stdout w' = stdout w.
Proof.
  intros Hshow. split.
  - by apply show_same_self in Hshow.
  - by apply show_same_stdout in Hshow.
Qed.

Lemma show_never_modifies_the_driver_witness :
  ∃ r w', show flip_fails painted_world = (r, w') ∧
          self w' = self painted_world ∧ stdout w' = stdout painted_world.
Proof.
  eexists _, _. split; [vm_compute; reflexivity|].
  eapply (show_never_modifies_the_driver flip_fails painted_world).
  vm_compute. reflexivity.
Defined.

(** The rule for loops that return: an invariant indexed by the elements
    already handled, kept by every iteration that returns. *)
Lemma for_each_returns {A} (I : list A → world → Prop) (xs : list A)
    (body : A → M unit) w w' :
  I [] w →
  (∀ done x w1 w2, x ∈ xs → I done w1 → body x w1 = (Ok tt, w2) →
                   I (done ++ [x]) w2) →
  for_each xs body w = (Ok tt, w') → I xs w'.
Proof.
  revert I w. induction xs as [|x xs IH]; intros I w Hnil Hstep Hrun.
  - by inversion Hrun; subst.
  - simpl in Hrun.
    apply bind_inv in Hrun as [([] & w1 & Hx & Hrest)|(e & _ & ?)]; [|done].
    apply (IH (λ done, I (x :: done)) w1).
    + apply (Hstep [] x w w1); [left|done|done].
    + intros done y w2 w3 Hy HI Hbody.
      apply (Hstep (x :: done) y w2 w3); [by right|done|done].
    + done.
Qed.

Lemma drawn_nil w : drawn [] w = w.
Proof.
  destruct w as [d [i [s|] win cap q pick] out]; unfold drawn; simpl; [|done].
  by destruct s.
Qed.

Lemma drawn_app a b w : drawn b (drawn a w) = drawn (a ++ b) w.
Proof.
  unfold drawn. simpl. do 2 f_equal.
  destruct (pg_display (pg w)) as [d|]; simpl; [|done].
  by rewrite rev_app_distr, app_assoc.
Qed.

(** An iteration of the inner loop of [show] that returns has drawn the
    rectangle of its cell and done nothing else. *)
Lemma show_cell_returns faults rows w y x w' :
  buffer (self w) = Some rows →
  (c ← buffer_getitem y x;
   d ← get_self;
   match screen d with
   | Some s =>
       draw_rect faults s c
         (mkRect (x * scale d) (y * scale d) (scale d) (scale d))
   | None =>
       raise (TypeError "argument 1 must be pygame.surface.Surface, not None")
   end) w = (Ok tt, w') →
  w' = drawn (cell_draw (scale (self w)) rows y x) w.
Proof.
  intros Hbuf. unfold cell_draw, mbind, M_bind, buffer_getitem, get_self.
  rewrite Hbuf. destruct (grid_getitem rows y x) as [c|e]; [|done].
  destruct (screen (self w)) as [[]|]; [|done].
  unfold draw_rect, guarded, mbind, M_bind, get_pg, put_pg, raise.
  destruct (faults _ _); [done|].
  destruct (pg_display (pg w)) as [d|] eqn:Hd; [|done].
  destruct (valid_color c); [|done].
  intros [= <-]. unfold drawn. by rewrite Hd.
Qed.

Lemma show_rows_return faults rows w w' :
  buffer (self w) = Some rows →
  for_each (range (height (self w))) (λ y,
    d ← get_self;
    for_each (range (width d)) (λ x,
      c ← buffer_getitem y x;
      d ← get_self;
      match screen d with
      | Some s =>
          draw_rect faults s c
            (mkRect (x * scale d) (y * scale d) (scale d) (scale d))
      | None =>
          raise (TypeError "argument 1 must be pygame.surface.Surface, not None")
      end)) w = (Ok tt, w') →
  w' = drawn (rendering (width (self w)) (height (self w)) (scale (self w))
            rows) w.
Proof.
  intros Hbuf Hrun. unfold rendering.
  eapply (for_each_returns
            (λ done w1, w1 = drawn (done ≫= λ y, range (width (self w)) ≫=
                                      cell_draw (scale (self w)) rows y) w));
    [|clear Hrun w'|exact Hrun].
  { by rewrite drawn_nil. }
  intros done y w1 w2 _ -> Hrow.
  unfold mbind at 1, M_bind at 1, get_self at 1 in Hrow. simpl in Hrow.
  rewrite bind_app, bind_singleton, <- drawn_app.
  eapply (for_each_returns
            (λ done' w3, w3 = drawn (done' ≫= cell_draw (scale (self w)) rows y)
                                (drawn (done ≫= λ y, range (width (self w)) ≫=
                                          cell_draw (scale (self w)) rows y) w)));
    [|clear Hrow w2|exact Hrow].
  { by rewrite drawn_nil. }
  intros done' x w3 w4 _ -> Hcell.
  apply (show_cell_returns faults rows) in Hcell; [|done].
  simpl in Hcell. rewrite Hcell, drawn_app.
  by rewrite bind_app, bind_singleton.
Qed.

Lemma show_returns_shown faults w rows w' :
  buffer (self w) = Some rows → screen (self w) ≠ None →
  show faults w = (Ok tt, w') →
  w' = shown rows w ∧ is_Some (pg_display (pg w)).
Proof.
  intros Hbuf Hscreen. unfold show.
  unfold mbind at 1, M_bind at 1, get_self at 1.
  destruct (screen (self w)) as [s|]; [clear Hscreen|done]. intros H.
  apply bind_inv in H as [(evs & w1 & Hget & H)|(e & _ & ?)]; [|done].
  assert (w1 = queue_drained w) as ->.
  { revert Hget.
    unfold event_get, guarded, mbind, M_bind, get_pg, put_pg, raise, mret, M_ret.
    intros Hget. repeat case_match; simplify_eq. unfold queue_drained.
    match goal with Hinit : pg_init _ = true |- _ => by rewrite Hinit end. }
  apply bind_inv in H as [([] & w2 & Hevs & H)|(e & _ & ?)]; [|done].
  rewrite for_each_skip in Hevs by (intros ev w0; by destruct (bool_decide _)).
  inversion Hevs; subst w2; clear Hevs.
  unfold mbind at 1, M_bind at 1, get_self at 1 in H.
  apply bind_inv in H as [([] & w3 & Hrows & Hflip)|(e & _ & ?)]; [|done].
  apply (show_rows_return faults rows) in Hrows; [|done]. simpl in Hrows.
  subst w3. revert Hflip.
  unfold display_flip, guarded, mbind, M_bind, get_pg, put_pg, raise.
  destruct (faults _ _); [done|]. simpl.
  destruct (pg_display (pg w)) as [d|] eqn:Hd; simpl; [|done].
  intros [= <-]. split; [|by eexists].
  unfold shown, flipped. simpl. by rewrite Hd.
Qed.

(** X8. Whenever [show] returns on a driver that has a screen and a buffer,
    the event queue has been emptied, one rectangle per cell has been drawn
    on the display surface (cell [(x, y)] at [(x * scale, y * scale)], of
    size [scale] by [scale], in the colour the buffer holds there), row by
    row and left to right within a row, on top of what the surface held, and
    the window shows exactly that surface. Nothing else has changed. *)
Theorem show_draws_every_cell_and_flips faults w rows w' :
  buffer (self w) = Some rows → screen (self w) ≠ None →
  show faults w = (Ok tt, w') →
  w' = shown rows w ∧
  pg_queue (pg w') = [] ∧
  ∃ d, pg_display (pg w) = Some d ∧
       pg_window (pg w')
       = rev (rendering (width (self w)) (height (self w)) (scale (self w))
                rows) ++ surf_fills d ∧
       pg_display (pg w')
       = Some {| surf_size := surf_size d; surf_fills := pg_window (pg w') |}.
Proof.
  intros Hbuf Hscreen Hshow.
  destruct (show_returns_shown faults w rows w' Hbuf Hscreen Hshow)
    as [-> [d Hd]].
  split; [done|]. split; [done|]. exists d. split; [done|].
  unfold shown, flipped, drawn. simpl. rewrite Hd. simpl. done.
Qed.

Lemma show_draws_every_cell_and_flips_witness :
  ∃ w', show no_faults (post_event key_up_pressed painted_world) = (Ok tt, w') ∧
        pg_queue (pg w') = [] ∧
        pg_window (pg w')
        = [(cell_rect 2 1, black); (cell_rect 1 1, red); (cell_rect 0 1, black);
           (cell_rect 2 0, black); (cell_rect 1 0, black); (cell_rect 0 0, black)]
          ++ black_cells.
Proof.
  assert (∃ w', show no_faults (post_event key_up_pressed painted_world)
                = (Ok tt, w')) as [w' Hshow]
    by (eexists; vm_compute; reflexivity).
  assert (screen (self (post_event key_up_pressed painted_world)) ≠ None)
    as Hscreen by discriminate.
  exists w'. split; [exact Hshow|].
  destruct (show_draws_every_cell_and_flips no_faults
              (post_event key_up_pressed painted_world)
              [[black; black; black]; [black; red; black]] w' eq_refl
              Hscreen Hshow)
    as (_ & Hqueue & d & Hd & Hwindow & _).
  split; [exact Hqueue|].
  rewrite Hwindow. injection Hd as <-. vm_compute. reflexivity.
Defined.

(** ** The state a successful [initialize] leaves *)

Ltac backend_returns H :=
  unfold pygame_init, display_set_mode, display_set_caption, guarded,
    mbind, M_bind, mret, M_ret, get_pg, put_pg, raise, modify_self, get_self
    in H;
  simpl in H; repeat case_match; simplify_eq.

Lemma initialize_try_state faults w b w' :
  initialize_try faults w = (Ok b, w') →
  b = true ∧ w' = initialized (self w) (pg w) (stdout w).
Proof.
  unfold initialize_try. intros H.
  bind_returns H Hinit. backend_returns Hinit.
  bind_returns H Hget. backend_returns Hget.
  bind_returns H Hmode. backend_returns Hmode.
  bind_returns H Hscr. backend_returns Hscr.
  bind_returns H Hcap. backend_returns Hcap.
  bind_returns H Hget. backend_returns Hget.
  bind_returns H Hbuf. backend_returns Hbuf.
  bind_returns H Hclear. bind_returns H Hshow.
  inversion H; subst; clear H. split; [done|].
  rewrite clear_exact in Hclear
    by (eexists; split; [reflexivity|apply comprehension_is_grid]).
  simpl in Hclear. inversion Hclear; subst; clear Hclear.
  repeat match goal with
         | u : () |- _ => destruct u
         | s : surface_ref |- _ => destruct s
         end.
  eapply show_returns_shown in Hshow as [-> _]; [|reflexivity|discriminate].
  unfold shown, initialized, flipped, drawn, queue_drained. simpl.
  by rewrite app_nil_r.
Qed.

Lemma initialize_true_state faults w w' :
  initialize faults w = (Ok true, w') →
  w' = initialized (self w) (pg w) (stdout w).
Proof.
  unfold initialize, try_except.
  destruct (initialize_try faults w) as [[b|e] w1] eqn:Htry.
  - intros [= -> ->]. by apply initialize_try_state in Htry as [_ ->].
  - destruct (is_Exception e); [|done].
    unfold mbind, M_bind, print, mret, M_ret. done.
Qed.

Lemma initialize_try_size_accepted faults w b w' :
  initialize_try faults w = (Ok b, w') →
  size_refused (window_width (self w), window_height (self w)) = false.
Proof.
  unfold initialize_try. intros H.
  bind_returns H Hinit. backend_returns Hinit.
  bind_returns H Hget. backend_returns Hget.
  bind_returns H Hmode. backend_returns Hmode. done.
Qed.

Lemma initialize_true_size_accepted faults w w' :
  initialize faults w = (Ok true, w') →
  size_refused (window_width (self w), window_height (self w)) = false.
Proof.
  unfold initialize, try_except.
  destruct (initialize_try faults w) as [[b|e] w1] eqn:Htry.
  - intros _. by eapply initialize_try_size_accepted.
  - destruct (is_Exception e); [|done].
    unfold mbind, M_bind, print, mret, M_ret. done.
Qed.

Lemma size_accepted_bounds a b :
  size_refused (a, b) = false → 0 ≤ a < 2 ^ 31 ∧ 0 ≤ b < 2 ^ 31.
Proof.
  unfold size_refused. simpl. rewrite !orb_false_iff.
  rewrite !Z.ltb_ge, !Z.leb_gt. lia.
Qed.

Lemma window_size_nonzero p a b :
  a ≠ 0 → b ≠ 0 → window_size p (a, b) = (a, b).
Proof.
  intros Ha Hb. unfold window_size. simpl.
  by rewrite (proj2 (Z.eqb_neq a 0) Ha), (proj2 (Z.eqb_neq b 0) Hb).
Qed.




Lemma no_faults_faultless : faultless no_faults.
Proof. by intros c p. Qed.


(** ** The ready driver *)

Lemma black_grid_valid W H : valid_grid (black_grid W H).
Proof.
  intros row c Hrow Hc. unfold black_grid in Hrow.
  apply elem_of_replicate in Hrow as [Hrow _]. rewrite Hrow in Hc.
  apply elem_of_replicate in Hc as [Hc _]. by rewrite Hc.
Qed.

Lemma grid_cell_of_elem W H rows row c :
  is_grid W H rows → row ∈ rows → c ∈ row →
  ∃ x y, 0 ≤ x < W ∧ 0 ≤ y < H ∧ grid_getitem rows y x = Ok c.
Proof.
  intros [Hlen Hrows] Hrow Hc. pose proof (Hrows row Hrow) as Hw.
  apply list_elem_of_lookup in Hrow as [i Hi].
  apply list_elem_of_lookup in Hc as [j Hj].
  pose proof (lookup_lt_Some _ _ _ Hi). pose proof (lookup_lt_Some _ _ _ Hj).
  exists (Z.of_nat j), (Z.of_nat i). split_and!; try lia.
  eapply grid_getitem_lookup; [lia|lia| |]; by rewrite Nat2Z.id.
Qed.

Lemma initialized_ready d p out : ready (initialized d p out).
Proof.
  unfold ready, drawable, owns_grid. simpl.
  split_and!;
    first [done | by eexists
          | eexists; split; [reflexivity|]; apply black_grid_is_grid
          | intros rows [= <-]; apply black_grid_valid ].
Qed.

Lemma ready_set_pixel w x y c :
  valid_color c = true →
  ready w → ∃ w', set_pixel x y c w = (Ok tt, w') ∧ ready w'.
Proof.
  intros Hcolor Hready. rewrite set_pixel_unfold.
  destruct (_ && _) eqn:Htest; [|by eauto].
  apply in_range_test in Htest as [Hx Hy].
  destruct Hready as (((Hg & _ & _) & Hscreen & Hdisp & Hvalid) & Hinit).
  destruct (buffer_setitem_spec w x y c Hg Hx Hy)
    as (w' & Hset & Hg' & Hfr & Hread & Hothers).
  exists w'. split; [done|].
  destruct (only_buffer_changed_dims _ _ Hfr) as (HW & HH & Hscr & _).
  pose proof Hfr as (Hpg & _ & _).
  unfold ready, drawable, owns_grid. rewrite Hpg, Hscr.
  split_and!; try done.
  intros rows' Hbuf' row c0 Hrow Hc0.
  pose proof Hg' as (rows'' & Hbuf'' & Hgrid').
  assert (rows'' = rows') as -> by congruence.
  destruct (grid_cell_of_elem _ _ rows' row c0 Hgrid' Hrow Hc0)
    as (x' & y' & Hx' & Hy' & Hcell).
  rewrite <- (pixel_buffer w' rows') in Hcell by done.
  destruct (decide ((x', y') = (x, y))) as [[= -> ->]|Hne].
  - congruence.
  - rewrite Hothers in Hcell by (done || lia).
    destruct Hg as (rows & Hbuf & _).
    rewrite (pixel_buffer w rows) in Hcell by done.
    destruct (grid_getitem_elem _ _ _ _ Hcell) as (row0 & ? & ?).
    by eapply (Hvalid rows).
Qed.

Lemma ready_clear w : ready w → ∃ w', clear w = (Ok tt, w') ∧ ready w'.
Proof.
  intros (((Hg & _ & _) & Hscreen & Hdisp & _) & Hinit).
  rewrite (clear_exact w Hg). eexists. split; [done|].
  unfold ready, drawable, owns_grid. simpl.
  split_and!;
    first [done | by eexists
          | eexists; split; [reflexivity|]; apply black_grid_is_grid
          | intros rows [= <-]; apply black_grid_valid ].
Qed.

Lemma ready_show faults w :
  faultless faults → ready w → ∃ w', show faults w = (Ok tt, w') ∧ ready w'.
Proof.
  intros Hnever Hready. pose proof Hready as [Hdraw Hinit].
  destruct (show_returns faults Hnever _ _ w Hdraw Hinit) as (w' & Hshow).
  exists w'. split; [done|].
  destruct Hdraw as ((Hg & _ & _) & Hscreen & [d Hd] & Hvalid).
  pose proof Hg as (rows & Hbuf & Hgrid).
  destruct (show_returns_shown faults w rows w' Hbuf) as [-> _];
    [by rewrite Hscreen|done|].
  unfold ready, drawable, owns_grid, shown. simpl. rewrite Hd. simpl.
  split_and!; first [done | by eexists].
Qed.





(** ** How [initialize] can end *)

Lemma initialize_try_same_stdout faults :
  respects same_stdout (initialize_try faults).
Proof.
  assert (respects same_stdout (pygame_init faults))
    by (unfold pygame_init; quiet_call).
  assert (∀ size, respects same_stdout (display_set_mode faults size))
    by (unfold display_set_mode; quiet_call).
  assert (∀ t, respects same_stdout (display_set_caption faults t))
    by (unfold display_set_caption; quiet_call).
  assert (∀ f, respects same_stdout (modify_self f))
    by (intros f w r w' Hrun; by inversion Hrun).
  assert (respects same_stdout clear).
  { intros w r w' Hrun. by apply clear_only_buffer in Hrun as (_ & ? & _). }
  pose proof (show_same_stdout faults).
  unfold initialize_try. respects_tac.
Qed.

(** X13. [initialize] ends in one of three ways, with any backend and from
    any state. Its [try] block returns, and it returns true, in the world
    the block left, having printed nothing. Or the block raises an
    [Exception]: it returns false, having changed nothing in the world the
    block left except for printing one line, the driver's tag followed by
    the text of that very exception. Or the block raises something that is
    not an [Exception] (a keyboard interrupt): [initialize] does not catch
    it, it raises it, in the world the block left, having printed
    nothing. *)
Theorem initialize_ends_in_one_of_three_ways faults w r w' :
  initialize faults w = (r, w') →
  (initialize_try faults w = (Ok true, w') ∧ r = Ok true ∧
   stdout w' = stdout w) ∨
  (∃ e w1, initialize_try faults w = (Raise e, w1) ∧
           is_Exception e = true ∧ r = Ok false ∧
           self w' = self w1 ∧ pg w' = pg w1 ∧
           stdout w'
           = stdout w ++ ["[MacOSWindowDriver] Failed to initialize: "
                          +:+ exn_str e]) ∨
  (∃ e, initialize_try faults w = (Raise e, w') ∧
        is_Exception e = false ∧ r = Raise e ∧ stdout w' = stdout w).
Proof.
  unfold initialize, try_except.
  destruct (initialize_try faults w) as [[b|e] w1] eqn:Htry.
  - intros [= <- <-]. left.
    pose proof (initialize_try_same_stdout faults _ _ _ Htry).
    by apply initialize_try_state in Htry as [-> _].
  - pose proof (initialize_try_same_stdout faults _ _ _ Htry) as Hout.
    unfold same_stdout in Hout.
    destruct (is_Exception e) eqn:He.
    + unfold mbind, M_bind, print, mret, M_ret. intros [= <- <-].
      right. left. exists e, w1. simpl. by rewrite Hout.
    + intros [= <- <-]. right. right. by exists e.
Qed.

Lemma initialize_ends_in_one_of_three_ways_witness :
  ∃ w', initialize no_video_device fresh_world = (Ok false, w') ∧
        stdout w'
        = ["[MacOSWindowDriver] Failed to initialize: No available video device"].
Proof.
  assert (∃ w', initialize no_video_device fresh_world = (Ok false, w'))
    as [w' Hrun] by (eexists; vm_compute; reflexivity).
  exists w'. split; [exact Hrun|].
  destruct (initialize_ends_in_one_of_three_ways no_video_device fresh_world
              (Ok false) w' Hrun)
    as [(_ & Hr & _)|[(e & w1 & Htry & _ & _ & _ & _ & Hout)|(e & _ & _ & Hr & _)]];
    [discriminate Hr| |discriminate Hr].
  rewrite Hout. vm_compute in Htry. injection Htry as <- _. reflexivity.
Defined.

(** ** After [cleanup] *)

Lemma event_get_without_video faults w :
  pg_init (pg w) = false →
  ∃ e, event_get faults w = (Raise e, w) ∧
       (faults call_event_get (pg w) = None →
        e = PygameError "video system not initialized").
Proof.
  intros Hdown. unfold event_get, guarded, mbind, M_bind, get_pg, raise.
  destruct (faults call_event_get (pg w)) as [e|]; [by exists e|].
  rewrite Hdown. by eexists.
Qed.

(** X14. [cleanup] shuts Pygame down but leaves the driver as it was, its
    [screen] included, so a [show] that follows does not take the early
    return of a driver without a screen: it goes on to
    [pygame.event.get()] and raises, whatever the backend, changing nothing;
    unless the backend fails in a way of its own, what it raises is Pygame's
    "video system not initialized". *)
Theorem show_after_cleanup_raises faults w w1 :
  screen (self w) ≠ None → cleanup w = (Ok tt, w1) →
  ∃ e, show faults w1 = (Raise e, w1) ∧
       (faults call_event_get (pg w1) = None →
        e = PygameError "video system not initialized").
Proof.
  intros Hscreen Hclean.
  destruct (cleanup_shuts_pygame_down w) as (w1' & Hrun & Hdown & Hself & _).
  rewrite Hclean in Hrun. inversion Hrun; subst w1'; clear Hrun.
  destruct (event_get_without_video faults w1 Hdown) as (e & Hget & He).
  exists e. split; [|done].
  unfold show. unfold mbind at 1, M_bind at 1, get_self at 1. rewrite Hself.
  destruct (screen (self w)) as [s|]; [clear Hscreen|done].
  by apply bind_raise.
Qed.

Lemma show_after_cleanup_raises_witness :
  ∃ w1, cleanup ready_world = (Ok tt, w1) ∧
        show no_faults w1
        = (Raise (PygameError "video system not initialized"), w1).
Proof.
  assert (∃ w1, cleanup ready_world = (Ok tt, w1)) as [w1 Hclean]
    by (eexists; vm_compute; reflexivity).
  assert (screen (self ready_world) ≠ None) as Hscreen by discriminate.
  exists w1. split; [exact Hclean|].
  destruct (show_after_cleanup_raises no_faults ready_world w1 Hscreen Hclean)
    as (e & Hshow & He).
  rewrite Hshow. rewrite (He eq_refl). reflexivity.
Defined.

(** ** The driver class against the contract *)

(** X15. [MacOSWindowDriver] implements the whole [DisplayDriver] contract
    and nothing beyond it: looked up on the class, no name resolves to an
    abstract method (so the class can be instantiated, which [DisplayDriver]
    itself cannot); each of the abstract methods of [DisplayDriver] resolves
    to a method of the driver's own; and the class answers to exactly the
    names [DisplayDriver] answers to. *)
Theorem MacOSWindowDriver_implements_the_contract imp attr :
  class_lookup (MacOSWindowDriver_class imp) attr ≠ Some abstractmethod ∧
  (class_lookup DisplayDriver attr = Some abstractmethod →
   class_lookup (MacOSWindowDriver_class imp) attr = Some method) ∧
  (class_lookup (MacOSWindowDriver_class imp) attr = None ↔
   class_lookup DisplayDriver attr = None).
Proof.
  destruct (decide (attr ∈ ["__init__"; "initialize"; "set_pixel"; "clear";
                            "show"; "cleanup"; "is_available"; "get_priority";
                            "get_platform_preference"])) as [Hin|Hout].
  - repeat (apply elem_of_cons in Hin as [->|Hin]);
      [..|by apply elem_of_nil in Hin];
      (split; [by vm_compute|]); (split; [by vm_compute|]);
      split; by vm_compute.
  - unfold class_lookup, MacOSWindowDriver_class, DisplayDriver, ABC.
    rewrite !not_elem_of_list_to_map_1 by exact Hout.
    rewrite lookup_empty. by split_and!.
Qed.

Lemma MacOSWindowDriver_implements_the_contract_witness :
  class_lookup DisplayDriver "show" = Some abstractmethod ∧
  class_lookup (MacOSWindowDriver_class (Ok tt)) "show" = Some method.
Proof.
  split; [vm_compute; reflexivity|].
  apply (proj1 (proj2 (MacOSWindowDriver_implements_the_contract
                         (Ok tt) "show"))).
  vm_compute. reflexivity.
Defined.
